(** * Text-similarity scorer: shallow embedding and verified properties

    The repository holds two versions of one program:
    - [src/main.py], the first version (module [Main] below);
    - [src/3223004469/main.py], the tuned version with a segmentation cache,
      the tiered fallback policy and a batch entry point (module [Tuned]).

    Python values are modelled as follows.
    - [str] is a list of Unicode code points ([N]); [None] is [option]'s
      [None], so an argument of the scorer has type [option str].
    - Python [int] is [Z].
    - A [float] is modelled by the real number it approximates ([R]): the
      arithmetic below is the exact one, rounding errors of binary64 are
      not represented.
    - Raising is modelled by the [result] type; the segmentation cache and
      the file system are threaded explicitly.

    The libraries the program calls are not part of the repository.  jieba's
    segmenter and the Unicode tables used by the vectorizer are parameters;
    [difflib.SequenceMatcher], [functools.lru_cache] and scikit-learn's
    [TfidfVectorizer] / [cosine_similarity] are modelled from their
    documented behaviour with the default arguments the program uses. *)

From Stdlib Require Import ZArith NArith List String Ascii Bool Lia.
From Stdlib Require Import DecimalString.
From Stdlib Require Import Reals Lra.
Import ListNotations.

(* ================================================================== *)
(** * Python values and builtins *)
(* ================================================================== *)

Module Py.

(** A Unicode code point. *)
Definition char := N.

(** Python [str]. *)
Definition str := list char.

Definition char_eqb (x y : char) : bool := N.eqb x y.

Fixpoint str_eqb (s t : str) : bool :=
  match s, t with
  | [], [] => true
  | x :: s', y :: t' => char_eqb x y && str_eqb s' t'
  | _, _ => false
  end.

(** [len(s)] *)
Definition len {A} (l : list A) : Z := Z.of_nat (List.length l).

(** [s[i]] for a non-negative index; [None] stands for [IndexError]. *)
Definition getitem {A} (l : list A) (i : Z) : option A :=
  if (i <? 0)%Z then None else nth_error l (Z.to_nat i).

(** [range(lo, hi)] *)
Definition range (lo hi : Z) : list Z :=
  map (fun k => (lo + Z.of_nat k)%Z) (seq 0 (Z.to_nat (hi - lo))).

(** [str.isspace] on one code point: the characters [str.split()] and
    [str.strip()] treat as separators. *)
Definition isspace (c : char) : bool :=
  ((9 <=? c) && (c <=? 13) || (28 <=? c) && (c <=? 32)
   || (c =? 133) || (c =? 160) || (c =? 5760)
   || (8192 <=? c) && (c <=? 8202)
   || (c =? 8232) || (c =? 8233) || (c =? 8239) || (c =? 8287)
   || (c =? 12288))%N.

(** [s.split()]: maximal runs of non-space characters.  [cur] is the
    run being read, in reverse. *)
Fixpoint split_from (cur : str) (s : str) : list str :=
  match s with
  | [] => match cur with [] => [] | _ => [rev cur] end
  | c :: s' =>
      if isspace c
      then match cur with
           | [] => split_from [] s'
           | _ => rev cur :: split_from [] s'
           end
      else split_from (c :: cur) s'
  end.

Definition split (s : str) : list str := split_from [] s.

(** [sep.join(words)] *)
Fixpoint join (sep : str) (words : list str) : str :=
  match words with
  | [] => []
  | [w] => w
  | w :: ws => w ++ sep ++ join sep ws
  end.

Fixpoint lstrip (s : str) : str :=
  match s with
  | [] => []
  | c :: s' => if isspace c then lstrip s' else s
  end.

(** [s.strip()] *)
Definition strip (s : str) : str := rev (lstrip (rev (lstrip s))).


(** [a == b] on values that are a [str] or [None]. *)
Definition eqb (a b : option str) : bool :=
  match a, b with
  | None, None => true
  | Some s, Some t => str_eqb s t
  | _, _ => false
  end.

(** Exception classes the program meets.  [UnicodeDecodeError] is a
    subclass of [ValueError]. *)
Inductive exc_class :=
| ValueError
| UnicodeDecodeError
| IndexError
| TypeError
| FileNotFoundError
| OSError.

(** An exception instance: its class and [str(e)]. *)
Record exception := Exc { exc_type : exc_class; exc_msg : string }.

(** [isinstance(e, ValueError)], what [except ValueError] tests. *)
Definition is_ValueError (e : exception) : bool :=
  match exc_type e with
  | ValueError | UnicodeDecodeError => true
  | _ => false
  end.

(** A call either returns or raises. *)
Inductive result (A : Type) :=
| Ok (v : A)
| Raise (e : exception).
Arguments Ok {A} v.
Arguments Raise {A} e.

Definition bind {A B} (r : result A) (k : A -> result B) : result B :=
  match r with
  | Ok v => k v
  | Raise e => Raise e
  end.

(** [needle in haystack] on message strings. *)
Fixpoint contains (needle haystack : string) : bool :=
  String.prefix needle haystack
  || match haystack with
     | EmptyString => false
     | String _ rest => contains needle rest
     end.

End Py.

Import Py.
Notation "x <- c ;; k" := (bind c (fun x => k))
  (at level 61, c at next level, right associativity).


(* ================================================================== *)
(** * difflib.SequenceMatcher(None, a, b).ratio() *)
(* ================================================================== *)

(** The matcher is built with [isjunk=None] and the default
    [autojunk=True]: no element is junk, and when [b] has 200 elements or
    more, the elements that occur more than [len(b) // 100 + 1] times are
    "popular" and are removed from the index [b2j]. *)
Module difflib.

(** A matching block [Match(a=i, b=j, size=k)]. *)
Definition Match := (Z * Z * Z)%type.

Definition size (m : Match) : Z := snd m.

(** Positions of [elt] in [b], counted from [j], in increasing order. *)
Fixpoint indices_from (j : Z) (b : str) (elt : char) : list Z :=
  match b with
  | [] => []
  | x :: b' =>
      if char_eqb x elt
      then j :: indices_from (j + 1) b' elt
      else indices_from (j + 1) b' elt
  end.

(** [elt in bpopular] after [__chain_b]. *)
Definition popular (b : str) (elt : char) : bool :=
  let n := len b in
  ((200 <=? n) && (n / 100 + 1 <? len (indices_from 0 b elt)))%Z.

(** [b2j.get(elt, [])] after [__chain_b]. *)
Definition b2j (b : str) (elt : char) : list Z :=
  if popular b elt then [] else indices_from 0 b elt.

(** [j2len.get(j, default)] on a dictionary kept as an association
    list, newest binding first. *)
Fixpoint dict_get (d : list (Z * Z)) (j : Z) (default : Z) : Z :=
  match d with
  | [] => default
  | (j', k) :: d' => if (j' =? j)%Z then k else dict_get d' j default
  end.

(** The inner loop of [find_longest_match], over the positions [js] of
    [a[i]] in [b]: positions below [blo] are skipped, the first one at
    [bhi] or above ends the loop. *)
Fixpoint scan_row (blo bhi i : Z) (js : list Z)
         (j2len newj2len : list (Z * Z)) (best : Match)
  : list (Z * Z) * Match :=
  match js with
  | [] => (newj2len, best)
  | j :: js' =>
      if (j <? blo)%Z then scan_row blo bhi i js' j2len newj2len best
      else if (bhi <=? j)%Z then (newj2len, best)
      else
        let k := (dict_get j2len (j - 1) 0 + 1)%Z in
        let best' :=
          if (size best <? k)%Z then (i - k + 1, j - k + 1, k)%Z
          else best in
        scan_row blo bhi i js' j2len ((j, k) :: newj2len) best'
  end.

(** The outer loop [for i in range(alo, ahi)]. *)
Fixpoint scan_rows (a b : str) (blo bhi : Z) (rows : list Z)
         (j2len : list (Z * Z)) (best : Match) : Match :=
  match rows with
  | [] => best
  | i :: rows' =>
      let js := match getitem a i with
                | Some x => b2j b x
                | None => []
                end in
      let '(newj2len, best') := scan_row blo bhi i js j2len [] best in
      scan_rows a b blo bhi rows' newj2len best'
  end.

(** [a[i] == b[j]] *)
Definition same_at (a b : str) (i j : Z) : bool :=
  match getitem a i, getitem b j with
  | Some x, Some y => char_eqb x y
  | _, _ => false
  end.

(** [while besti > alo and bestj > blo and a[besti-1] == b[bestj-1]]:
    at most [besti - alo] rounds. *)
Fixpoint extend_left (n : nat) (a b : str) (alo blo : Z) (m : Match)
  : Match :=
  let '(besti, bestj, bestsize) := m in
  match n with
  | O => m
  | S n' =>
      if ((alo <? besti) && (blo <? bestj))%Z
         && same_at a b (besti - 1) (bestj - 1)
      then extend_left n' a b alo blo
             (besti - 1, bestj - 1, bestsize + 1)%Z
      else m
  end.

(** [while besti+bestsize < ahi and bestj+bestsize < bhi and
    a[besti+bestsize] == b[bestj+bestsize]]: at most
    [ahi - (besti + bestsize)] rounds. *)
Fixpoint extend_right (n : nat) (a b : str) (ahi bhi : Z) (m : Match)
  : Match :=
  let '(besti, bestj, bestsize) := m in
  match n with
  | O => m
  | S n' =>
      if ((besti + bestsize <? ahi) && (bestj + bestsize <? bhi))%Z
         && same_at a b (besti + bestsize) (bestj + bestsize)
      then extend_right n' a b ahi bhi (besti, bestj, bestsize + 1)%Z
      else m
  end.

(** [find_longest_match(alo, ahi, blo, bhi)].  The two further loops of
    the source extend the match over junk elements; with [isjunk=None]
    the junk set is empty and they do nothing. *)
Definition find_longest_match (a b : str) (alo ahi blo bhi : Z) : Match :=
  let m0 := scan_rows a b blo bhi (range alo ahi) [] (alo, blo, 0%Z) in
  let m1 := extend_left (Z.to_nat (fst (fst m0) - alo)) a b alo blo m0 in
  extend_right (Z.to_nat (ahi - (fst (fst m1) + size m1))) a b ahi bhi m1.

(** The work-list loop of [get_matching_blocks]; [queue.pop()] takes the
    last pushed range, which is the head here.  [None] means that the
    loop was cut after [fuel] rounds. *)
Fixpoint blocks_loop (fuel : nat) (a b : str)
         (queue : list (Z * Z * Z * Z)) (blocks : list Match)
  : option (list Match) :=
  match queue with
  | [] => Some blocks
  | (alo, ahi, blo, bhi) :: queue' =>
      match fuel with
      | O => None
      | S fuel' =>
          let x := find_longest_match a b alo ahi blo bhi in
          let '(i, j, k) := x in
          if (k =? 0)%Z then blocks_loop fuel' a b queue' blocks
          else
            let q1 := if ((alo <? i) && (blo <? j))%Z
                      then (alo, i, blo, j) :: queue' else queue' in
            let q2 := if ((i + k <? ahi) && (j + k <? bhi))%Z
                      then (i + k, ahi, j + k, bhi)%Z :: q1 else q1 in
            blocks_loop fuel' a b q2 (blocks ++ [x])
      end
  end.

(** The blocks found by [get_matching_blocks], before they are sorted,
    merged when adjacent and closed by the empty block
    [(len(a), len(b), 0)]: none of these steps changes the sum of the
    sizes, which is all [ratio] uses.  Every round handles a range that
    holds at least one element of [a] or is the first one, so
    [2 * len(a) + 1] rounds are enough (lemma [blocks_loop_total]). *)
Definition get_matching_blocks (a b : str) : option (list Match) :=
  blocks_loop (2 * List.length a + 1) a b [(0, len a, 0, len b)%Z] [].

(** [sum(triple[-1] for triple in self.get_matching_blocks())] *)
Definition matches (a b : str) : Z :=
  match get_matching_blocks a b with
  | Some blocks => fold_right (fun m acc => (size m + acc)%Z) 0%Z blocks
  | None => 0%Z
  end.

(** [_calculate_ratio(matches, length)] *)
Definition calculate_ratio (matches length : Z) : R :=
  if (length =? 0)%Z then 1%R
  else (2 * IZR matches / IZR length)%R.

(** [SequenceMatcher(None, a, b).ratio()] *)
Definition ratio (a b : str) : R :=
  calculate_ratio (matches a b) (len a + len b).

End difflib.

(* ================================================================== *)
(** * scikit-learn: TfidfVectorizer() and cosine_similarity *)
(* ================================================================== *)

(** A matrix is the list of its rows. *)
Definition matrix := list (list R).

(** [TfidfVectorizer()] with its default arguments: the document is
    lower-cased, its terms are the matches of the token pattern
    [\b\w\w+\b] (the maximal runs of two or more word characters), the
    vocabulary is the sorted set of the terms of all documents, a term
    seen in [df] of the [n] documents has weight
    [idf = ln((1 + n) / (1 + df)) + 1], and each row [tf * idf] is scaled
    to Euclidean length 1.  [str.lower] and the class [\w] come from the
    Unicode tables and are parameters. *)
Module sklearn.

Definition empty_vocabulary : exception :=
  Exc ValueError
      "empty vocabulary; perhaps the documents only contain stop words".

Definition no_samples : exception :=
  Exc ValueError "Found array with 0 sample(s) while a minimum of 1 is required.".

Definition keep_token (cur : str) (rest : list str) : list str :=
  if (2 <=? List.length cur)%nat then rev cur :: rest else rest.

(** [token_pattern.findall(s)]; [cur] is the run of word characters
    being read, in reverse. *)
Fixpoint findall (is_word : char -> bool) (cur : str) (s : str)
  : list str :=
  match s with
  | [] => keep_token cur []
  | c :: s' =>
      if is_word c then findall is_word (c :: cur) s'
      else keep_token cur (findall is_word [] s')
  end.

(** The analyzer: the terms of one document, with repetitions. *)
Definition analyze (lower : str -> str) (is_word : char -> bool)
           (doc : str) : list str :=
  findall is_word [] (lower doc).

(** Order of [str] values: by code point, shorter prefix first. *)
Fixpoint str_ltb (s t : str) : bool :=
  match s, t with
  | _, [] => false
  | [], _ :: _ => true
  | x :: s', y :: t' =>
      (x <? y)%N || (char_eqb x y && str_ltb s' t')
  end.

(** Insertion of a term in a sorted list without repetition. *)
Fixpoint insert_term (t : str) (l : list str) : list str :=
  match l with
  | [] => [t]
  | u :: l' =>
      if str_eqb t u then l
      else if str_ltb t u then t :: l
      else u :: insert_term t l'
  end.

(** [sorted(set(terms))] *)
Definition sorted_set (terms : list str) : list str :=
  fold_right insert_term [] terms.

(** Number of occurrences of [t] among [terms]. *)
Definition count (t : str) (terms : list str) : nat :=
  List.length (filter (str_eqb t) terms).

(** Number of documents, given by their terms, that contain [t]. *)
Definition document_frequency (t : str) (docs : list (list str)) : nat :=
  List.length (filter (fun terms => negb (count t terms =? 0)%nat) docs).

(** Smoothed inverse document frequency. *)
Definition idf (n df : nat) : R :=
  (ln ((1 + INR n) / (1 + INR df)) + 1)%R.

Definition sum_squares (row : list R) : R :=
  fold_right (fun x acc => (x * x + acc)%R) 0%R row.

Definition norm (row : list R) : R := sqrt (sum_squares row).

(** [normalize(X)] on one row: a zero row is left as it is. *)
Definition normalize (row : list R) : list R :=
  if Req_dec_T (norm row) 0 then row
  else map (fun x => (x / norm row)%R) row.

Definition dot (x y : list R) : R :=
  fold_right (fun p acc => (fst p * snd p + acc)%R) 0%R (combine x y).

(** The row of one document over the vocabulary. *)
Definition tfidf_row (vocabulary : list str) (docs : list (list str))
           (terms : list str) : list R :=
  normalize
    (map (fun t => (INR (count t terms)
                    * idf (List.length docs)
                          (document_frequency t docs))%R)
         vocabulary).

(** The fitted [vocabulary_], in column order. *)
Definition vocabulary (lower : str -> str) (is_word : char -> bool)
           (raw_documents : list str) : list str :=
  sorted_set (List.concat (map (analyze lower is_word) raw_documents)).

(** [TfidfVectorizer().fit_transform(raw_documents)] *)
Definition fit_transform (lower : str -> str) (is_word : char -> bool)
           (raw_documents : list str) : result matrix :=
  let docs := map (analyze lower is_word) raw_documents in
  match vocabulary lower is_word raw_documents with
  | [] => Raise empty_vocabulary
  | t :: ts => Ok (map (tfidf_row (t :: ts) docs) docs)
  end.

(** [cosine_similarity(X, Y)]: both arguments must have a row. *)
Definition cosine_similarity (X Y : matrix) : result matrix :=
  match X, Y with
  | [], _ | _, [] => Raise no_samples
  | _, _ =>
      Ok (map (fun x => map (fun y => dot (normalize x) (normalize y)) Y)
              X)
  end.

(** [X[lo:hi]] on the rows of a matrix, for [0 <= lo <= hi]. *)
Definition rows (X : matrix) (lo hi : Z) : matrix :=
  firstn (Z.to_nat (hi - lo)) (skipn (Z.to_nat lo) X).

(** [K[0][0]] *)
Definition item00 (K : matrix) : result R :=
  match K with
  | (v :: _) :: _ => Ok v
  | _ => Raise (Exc IndexError "index 0 is out of bounds")
  end.

End sklearn.

(* ================================================================== *)
(** * functools.lru_cache *)
(* ================================================================== *)

Module functools.

(** The cache of a function of one argument that is a [str] or [None]:
    the entries, most recently used first. *)
Definition cache := list (option str * str).

Fixpoint lookup (key : option str) (c : cache) : option str :=
  match c with
  | [] => None
  | (k, v) :: c' => if eqb k key then Some v else lookup key c'
  end.

Fixpoint remove (key : option str) (c : cache) : cache :=
  match c with
  | [] => []
  | (k, v) :: c' => if eqb k key then c' else (k, v) :: remove key c'
  end.

(** One call of [lru_cache(maxsize)(f)]: a hit moves the entry to the
    front; a miss calls [f], drops the least recently used entry when
    the cache is full, and stores the new one at the front. *)
Definition lru_call (maxsize : nat) (f : option str -> str)
           (key : option str) (c : cache) : str * cache :=
  match lookup key c with
  | Some v => (v, (key, v) :: remove key c)
  | None =>
      let v := f key in
      if (maxsize <=? List.length c)%nat
      then (v, (key, v) :: removelast c)
      else (v, (key, v) :: c)
  end.

End functools.

(* ================================================================== *)
(** * round(x, 2) and str() of the result *)
(* ================================================================== *)

Module builtins.

(** The integer nearest to [y], the even one on a tie. *)
Definition round_half_even (y : R) : Z :=
  let f := Int_part y in
  let r := (y - IZR f)%R in
  if Rlt_dec r (1 / 2) then f
  else if Rlt_dec (1 / 2) r then (f + 1)%Z
  else if Z.even f then f else (f + 1)%Z.

(** [round(x, 2)]: the result is the float nearest to [d / 100], kept
    here as the integer [d], where [d] is [100 * x] rounded to the
    nearest integer, ties to even. *)
Definition round2 (x : R) : Z := round_half_even (x * 100).

(** The code points of an ASCII literal. *)
Fixpoint of_string (s : string) : str :=
  match s with
  | EmptyString => []
  | String c s' => N_of_ascii c :: of_string s'
  end.

Definition digits (n : Z) : str :=
  of_string (NilZero.string_of_uint (N.to_uint (Z.to_N n))).

(** [str(d / 100)] for the float nearest to [d / 100]: the shortest
    decimal that reads back as the same float, with at least one digit
    after the point.  (Python turns to exponent notation from [1e16]
    on; the values written by this program are far below.) *)
Definition str_hundredths (d : Z) : str :=
  let m := Z.abs d in
  let sign := if (d <? 0)%Z then of_string "-" else [] in
  let frac :=
    if (m mod 10 =? 0)%Z then digits ((m mod 100) / 10)
    else digits ((m mod 100) / 10) ++ digits (m mod 10) in
  sign ++ digits (m / 100) ++ of_string "." ++ frac.

End builtins.

(* ================================================================== *)
(** * Files and the console *)
(* ================================================================== *)

Module OS.

(** What a path names: a file that decodes as UTF-8, a file that does
    not, or a directory. *)
Inductive node :=
| Utf8 (content : str)
| NotUtf8
| Directory.

Definition filesystem := string -> option node.

Definition put (fs : filesystem) (path : string) (content : str)
  : filesystem :=
  fun p => if String.eqb p path then Some (Utf8 content) else fs p.

(** The lines the program prints. *)
Inductive line :=
| UsageError                       (* 参数错误！正确用法： *)
| UsageSyntax                      (* python main.py [...] [...] [...] *)
| FileMissing (path : string)      (* 错误：文件 ... 不存在 *)
| FileNotUtf8 (path : string)      (* 错误：文件 ... 编码不是UTF-8 *)
| FileUnreadable (path : string)   (* 读取文件 ... 失败：... *)
| ReadFailed                       (* 文件读取失败！ *)
| WriteFailed (path : string)      (* 写入结果到 ... 失败：... *)
| Done (similarity : R).           (* 查重完成！相似度: ... *)

(** [read_file(file_path)], the same function in both versions: the
    stripped content, or [None] and a printed line. *)
Definition read_file (fs : filesystem) (file_path : string)
  : option str * list line :=
  match fs file_path with
  | Some (Utf8 content) => (Some (strip content), [])
  | None => (None, [FileMissing file_path])
  | Some NotUtf8 => (None, [FileNotUtf8 file_path])
  | Some Directory => (None, [FileUnreadable file_path])
  end.

(** [write_result(output_path, similarity)], the same function in both
    versions: opening a directory for writing fails, and the failure
    is printed. *)
Definition write_result (fs : filesystem) (output_path : string)
           (similarity : R) : filesystem * list line :=
  let result := builtins.round2 similarity in
  match fs output_path with
  | Some Directory => (fs, [WriteFailed output_path])
  | _ => (put fs output_path (builtins.str_hundredths result), [])
  end.

(** [sys.argv[i]] *)
Definition argv_item (argv : list string) (i : Z) : result string :=
  match getitem argv i with
  | Some a => Ok a
  | None => Raise (Exc IndexError "list index out of range")
  end.

End OS.

Definition space : str := [32%N].

(* ================================================================== *)
(** * src/main.py *)
(* ================================================================== *)

Module Main.
Section Program.

(** [jieba.lcut] *)
Variable lcut : str -> list str.
(** [TfidfVectorizer().fit_transform] *)
Variable fit_transform : list str -> result matrix.

Definition preprocess_text (text : option str) : str :=
  match text with
  | None => []
  | Some [] => []
  | Some s => join space (lcut s)
  end.

Definition is_empty (s : str) : bool :=
  match s with [] => true | _ => false end.

Definition calculate_similarity (original_text copied_text : option str)
  : result R :=
  let original_processed := preprocess_text original_text in
  let copied_processed := preprocess_text copied_text in
  if is_empty original_processed && is_empty copied_processed
  then Ok 1%R
  else if is_empty original_processed || is_empty copied_processed
  then Ok 0%R
  else
    tfidf_matrix <- fit_transform [original_processed; copied_processed];;
    K <- sklearn.cosine_similarity (sklearn.rows tfidf_matrix 0 1)
                                   (sklearn.rows tfidf_matrix 1 2);;
    sklearn.item00 K.

(** [main()]: the lines printed, the file system left behind, and
    whether the call returned or raised.  The usage message and the
    read-failure message are printed, and the run goes on. *)
Definition main (argv : list string) (fs : OS.filesystem)
  : list OS.line * OS.filesystem * result unit :=
  let out0 :=
    if (len argv =? 4)%Z then []
    else [OS.UsageError; OS.UsageSyntax] in
  match OS.argv_item argv 1, OS.argv_item argv 2, OS.argv_item argv 3
  with
  | Ok original_path, Ok copied_path, Ok output_path =>
      let '(original_text, out1) := OS.read_file fs original_path in
      let '(copied_text, out2) := OS.read_file fs copied_path in
      let out3 :=
        match original_text, copied_text with
        | Some _, Some _ => []
        | _, _ => [OS.ReadFailed]
        end in
      let out := out0 ++ out1 ++ out2 ++ out3 in
      match calculate_similarity original_text copied_text with
      | Ok similarity =>
          let '(fs', out4) := OS.write_result fs output_path similarity in
          (out ++ out4, fs', Ok tt)
      | Raise e => (out, fs, Raise e)
      end
  | Raise e, _, _ | _, Raise e, _ | _, _, Raise e => (out0, fs, Raise e)
  end.

End Program.
End Main.

(* ================================================================== *)
(** * src/3223004469/main.py *)
(* ================================================================== *)

Module Tuned.
Section Program.

(** [jieba.lcut] *)
Variable lcut : str -> list str.
(** [get_vectorizer().fit_transform]: the one global vectorizer is
    fitted anew by every call, so nothing of an earlier call is left
    in it. *)
Variable fit_transform : list str -> result matrix.

(** The function under [@lru_cache(maxsize=1000)]. *)
Definition cached_preprocess_text_wrapped (text : option str) : str :=
  match text with
  | None => []
  | Some [] => []
  | Some s => join space (lcut s)
  end.

Definition maxsize : nat := 1000.

Definition cached_preprocess_text (text : option str)
           (c : functools.cache) : str * functools.cache :=
  functools.lru_call maxsize cached_preprocess_text_wrapped text c.

Definition preprocess_text (text : option str) (c : functools.cache)
  : str * functools.cache :=
  cached_preprocess_text text c.

Definition is_empty {A} (s : list A) : bool :=
  match s with [] => true | _ => false end.

(** [SequenceMatcher(None, a, b).ratio()]; the matcher takes the
    length of both arguments. *)
Definition SequenceMatcher_ratio (a b : option str) : result R :=
  match a, b with
  | Some x, Some y => Ok (difflib.ratio x y)
  | _, _ => Raise (Exc TypeError "object of type 'NoneType' has no len()")
  end.

(** The body of [calculate_similarity] below its first two lines,
    as a function of the two preprocessed texts. *)
Definition score_processed (original_text copied_text : option str)
           (original_processed copied_processed : str) : result R :=
  if is_empty original_processed && is_empty copied_processed
  then Ok 1%R
  else if is_empty original_processed || is_empty copied_processed
  then Ok 0%R
  else
    let original_words := split original_processed in
    let copied_words := split copied_processed in
    if is_empty original_words && is_empty copied_words
    then Ok (if eqb original_text copied_text then 1%R else 0%R)
    else if is_empty original_words || is_empty copied_words
    then Ok 0%R
    else
      if ((len original_words =? 1) && (len copied_words =? 1))%Z
      then
        if match getitem original_words 0, getitem copied_words 0 with
           | Some w1, Some w2 => str_eqb w1 w2
           | _, _ => false
           end
        then Ok 1%R
        else SequenceMatcher_ratio original_text copied_text
      else
        match
          tfidf_matrix <-
            fit_transform [original_processed; copied_processed];;
          K <- sklearn.cosine_similarity
                 (sklearn.rows tfidf_matrix 0 1)
                 (sklearn.rows tfidf_matrix 1 2);;
          sklearn.item00 K
        with
        | Ok similarity_score => Ok similarity_score
        | Raise e =>
            if is_ValueError e
            then if contains "empty vocabulary" (exc_msg e)
                 then SequenceMatcher_ratio original_text copied_text
                 else Raise e
            else Raise e
        end.

Definition calculate_similarity (original_text copied_text : option str)
           (c : functools.cache) : result R * functools.cache :=
  let '(original_processed, c1) := preprocess_text original_text c in
  let '(copied_processed, c2) := preprocess_text copied_text c1 in
  (score_processed original_text copied_text
                   original_processed copied_processed,
   c2).

(** The first loop of [calculate_similarity_batch]: both texts of
    every pair, preprocessed in order. *)
Fixpoint preprocess_pairs (text_pairs : list (option str * option str))
         (c : functools.cache) : list str * functools.cache :=
  match text_pairs with
  | [] => ([], c)
  | (original, copied) :: rest =>
      let '(p1, c1) := preprocess_text original c in
      let '(p2, c2) := preprocess_text copied c1 in
      let '(all_texts, c3) := preprocess_pairs rest c2 in
      (p1 :: p2 :: all_texts, c3)
  end.

(** The second loop, over [i] in [range(0, len(all_texts), 2)],
    given as the list [steps]. *)
Fixpoint similarities_loop (tfidf_matrix : matrix) (n : Z)
         (steps : list Z) : result (list R) :=
  match steps with
  | [] => Ok []
  | i :: steps' =>
      if (i + 1 <? n)%Z
      then
        K <- sklearn.cosine_similarity
               (sklearn.rows tfidf_matrix i (i + 1))
               (sklearn.rows tfidf_matrix (i + 1) (i + 2));;
        similarity <- sklearn.item00 K;;
        rest <- similarities_loop tfidf_matrix n steps';;
        Ok (similarity :: rest)
      else similarities_loop tfidf_matrix n steps'
  end.

(** [range(0, n, 2)] *)
Definition range_step2 (n : Z) : list Z :=
  map (fun k => (2 * Z.of_nat k)%Z) (seq 0 (Z.to_nat ((n + 1) / 2))).

Definition calculate_similarity_batch
           (text_pairs : list (option str * option str))
           (c : functools.cache) : result (list R) * functools.cache :=
  match text_pairs with
  | [] => (Ok [], c)
  | _ :: _ =>
      let '(all_texts, c') := preprocess_pairs text_pairs c in
      (tfidf_matrix <- fit_transform all_texts;;
       similarities_loop tfidf_matrix (len all_texts)
                         (range_step2 (len all_texts)),
       c')
  end.

(** [main()]: the lines printed, the file system and the cache left
    behind, and whether the call returned or raised. *)
Definition main (argv : list string) (fs : OS.filesystem)
           (c : functools.cache)
  : list OS.line * OS.filesystem * functools.cache * result unit :=
  if negb (len argv =? 4)%Z
  then ([OS.UsageError; OS.UsageSyntax], fs, c, Ok tt)
  else
    match OS.argv_item argv 1, OS.argv_item argv 2, OS.argv_item argv 3
    with
    | Ok original_path, Ok copied_path, Ok output_path =>
        let '(original_text, out1) := OS.read_file fs original_path in
        let '(copied_text, out2) := OS.read_file fs copied_path in
        match original_text, copied_text with
        | Some _, Some _ =>
            match calculate_similarity original_text copied_text c with
            | (Ok similarity, c') =>
                let '(fs', out3) :=
                  OS.write_result fs output_path similarity in
                (out1 ++ out2 ++ out3 ++ [OS.Done similarity],
                 fs', c', Ok tt)
            | (Raise e, c') => (out1 ++ out2, fs, c', Raise e)
            end
        | _, _ => (out1 ++ out2 ++ [OS.ReadFailed], fs, c, Ok tt)
        end
    | Raise e, _, _ | _, Raise e, _ | _, _, Raise e => ([], fs, c, Raise e)
    end.

End Program.

(** The global [_vectorizer] and the number of [TfidfVectorizer()] made so
    far; a vectorizer object is named by the number of objects made
    before it. *)
Record globals := { _vectorizer : option nat; constructed : nat }.

(** The module as loaded: [_vectorizer = None]. *)
Definition loaded : globals := {| _vectorizer := None; constructed := 0 |}.

Definition get_vectorizer (g : globals) : nat * globals :=
  match _vectorizer g with
  | None =>
      (constructed g,
       {| _vectorizer := Some (constructed g);
          constructed := S (constructed g) |})
  | Some v => (v, g)
  end.

Section Batch.

(** [os.path.exists], [os.makedirs] and [os.path.join] *)
Variable path_exists : OS.filesystem -> string -> bool.
Variable makedirs : OS.filesystem -> string -> result OS.filesystem.
Variable path_join : string -> string -> string.



End Batch.

(** [main_batch(input_dir, output_dir)]: the body is [pass]. *)
Definition main_batch (input_dir output_dir : string)
           (fs : OS.filesystem) : OS.filesystem :=
  fs.

End Tuned.

(* ================================================================== *)
(** * Vocabulary of the statements *)
(* ================================================================== *)

(** Every entry of the cache holds the value the wrapped function
    returns on its key. *)
Definition cache_sound (f : option str -> str) (c : functools.cache)
  : Prop :=
  Forall (fun kv => snd kv = f (fst kv)) c.

Definition coherent (lcut : str -> list str) (c : functools.cache) : Prop :=
  cache_sound (Tuned.cached_preprocess_text_wrapped lcut) c.

(** The cache after the calls [cached_preprocess_text(t)] for [t] in
    [history], in order, starting from [c]. *)
Fixpoint cache_after (lcut : str -> list str) (history : list (option str))
         (c : functools.cache) : functools.cache :=
  match history with
  | [] => c
  | t :: rest =>
      cache_after lcut rest (snd (Tuned.cached_preprocess_text lcut t c))
  end.

(** The token list of a text: the words of its preprocessed form. *)
Definition tokens (lcut : str -> list str) (text : option str) : list str :=
  split (Main.preprocess_text lcut text).

(** Both token lists are non-empty and at least one has two tokens or
    more: the pair is scored by the vectorizer. *)
Definition vector_path (lcut : str -> list str) (a b : option str) : Prop :=
  tokens lcut a <> [] /\ tokens lcut b <> [] /\
  ~ (List.length (tokens lcut a) = 1%nat /\
     List.length (tokens lcut b) = 1%nat).

(** The documents a batch hands to the vectorizer: both preprocessed
    texts of every pair, in order. *)
Definition batch_texts (lcut : str -> list str)
           (text_pairs : list (option str * option str)) : list str :=
  flat_map (fun p => [Main.preprocess_text lcut (fst p);
                      Main.preprocess_text lcut (snd p)])
           text_pairs.

(** A row without negative entry, and a vectorizer that returns only
    such rows. *)
Definition nonneg_row (row : list R) : Prop :=
  Forall (fun x => (0 <= x)%R) row.


(** A closed interval of scores. *)
Definition unit_interval (x : R) : Prop := (0 <= x <= 1)%R.


(** ** Reading a written score back *)





(** ** Invariants of the sequence matcher *)

(** A match inside the two ranges it was looked for in. *)
Definition good_match (alo ahi blo bhi : Z) (m : difflib.Match) : Prop :=
  let '(i, j, k) := m in
  (alo <= i /\ blo <= j /\ 0 <= k /\ i + k <= ahi /\ j + k <= bhi)%Z.

(** The dictionary [j2len] after row [i]: a run that ends at [(i, j)]
    starts inside both ranges. *)
Definition row_dict (alo blo bhi i : Z) (d : list (Z * Z)) : Prop :=
  Forall (fun jk => (1 <= snd jk <= i - alo + 1
                     /\ snd jk <= fst jk - blo + 1 /\ fst jk < bhi)%Z) d.

Fixpoint consecutive (i : Z) (rows : list Z) : Prop :=
  match rows with
  | [] => True
  | x :: rest => x = i /\ consecutive (i + 1) rest
  end.

Definition valid_range (q : Z * Z * Z * Z) : Prop :=
  let '(alo, ahi, blo, bhi) := q in (alo <= ahi /\ blo <= bhi)%Z.

(** Elements of [a], and of [b], in the ranges still to be searched. *)
Definition span_a (queue : list (Z * Z * Z * Z)) : Z :=
  fold_right (fun q acc => let '(alo, ahi, _, _) := q in (ahi - alo + acc)%Z)
             0%Z queue.

Definition span_b (queue : list (Z * Z * Z * Z)) : Z :=
  fold_right (fun q acc => let '(_, _, blo, bhi) := q in (bhi - blo + acc)%Z)
             0%Z queue.

(** A bound on the rounds the work list still needs. *)
Definition rounds (queue : list (Z * Z * Z * Z)) : Z :=
  fold_right (fun q acc =>
                let '(alo, ahi, _, _) := q in (2 * (ahi - alo) + 1 + acc)%Z)
             0%Z queue.

Definition total_size (blocks : list difflib.Match) : Z :=
  fold_right (fun m acc => (difflib.size m + acc)%Z) 0%Z blocks.

(** ** Sample instances of the parameters

    A segmenter that cuts a text at every character, one that keeps the
    text whole, and the ASCII part of the Unicode tables.  They are used
    to run the definitions on concrete inputs. *)

Definition lcut_chars (s : str) : list str := map (fun ch => [ch]) s.

Definition lcut_whole (s : str) : list str :=
  match s with [] => [] | _ => [s] end.

Definition ascii_lower_char (ch : char) : char :=
  if ((65 <=? ch) && (ch <=? 90))%N then (ch + 32)%N else ch.

Definition ascii_lower (s : str) : str := map ascii_lower_char s.

Definition ascii_word (ch : char) : bool :=
  ((48 <=? ch) && (ch <=? 57) || (65 <=? ch) && (ch <=? 90)
   || (97 <=? ch) && (ch <=? 122) || (ch =? 95))%N.

Definition ascii_fit_transform : list str -> result matrix :=
  sklearn.fit_transform ascii_lower ascii_word.

(** 1001 texts of one character each, all different: one more than the
    cache holds. *)
Definition texts_1001 : list (option str) :=
  map (fun k => Some [N.of_nat k]) (seq 1 1001).

(** The texts 好 and 坏. *)
Definition hao : str := [22909%N].
Definition huai : str := [22351%N].

(** The text [ab]: [lcut_chars] cuts it into two tokens of one character,
    of which the vectorizer keeps none. *)
Definition text_ab : str := [97%N; 98%N].

(** The text [ab cd], two tokens that are both terms of the vectorizer. *)
Definition text_ab_cd : str := [97; 98; 32; 99; 100]%N.

(** A command line with one argument too many, and a directory that
    holds two empty files. *)
Definition argv_five : list string :=
  ["main.py"; "orig.txt"; "copy.txt"; "out.txt"; "extra"]%string.

Definition two_empty_files : OS.filesystem :=
  fun p =>
    if String.eqb p "orig.txt" then Some (OS.Utf8 [])
    else if String.eqb p "copy.txt" then Some (OS.Utf8 [])
    else None.

(** ** Whitespace *)

(** Only whitespace, and none at all. *)
Definition all_space (s : str) : bool := forallb isspace s.

Definition no_space (s : str) : bool :=
  forallb (fun ch => negb (isspace ch)) s.


(** ** The batch *)

(** The score of the pair of rows [i] and [i + 1]. *)
Definition pair_score (m : matrix) (i : Z) : result R :=
  K <- sklearn.cosine_similarity (sklearn.rows m i (i + 1))
                                 (sklearn.rows m (i + 1) (i + 2));;
  sklearn.item00 K.

(** The row of a text in a batch fitted by scikit-learn. *)
Definition batch_row (lcut : str -> list str) (lower : str -> str)
           (is_word : char -> bool)
           (text_pairs : list (option str * option str))
           (text : option str) : list R :=
  sklearn.tfidf_row
    (sklearn.vocabulary lower is_word (batch_texts lcut text_pairs))
    (map (sklearn.analyze lower is_word) (batch_texts lcut text_pairs))
    (sklearn.analyze lower is_word (Main.preprocess_text lcut text)).


(** ** The cache as a recency list *)

Definition keys (c : functools.cache) : list (option str) := map fst c.

(** The key [t] sits in the cache behind keys of [others] only. *)
Definition behind (others : list (option str)) (t : option str)
           (c : functools.cache) : Prop :=
  exists pre v post,
    c = pre ++ (t, v) :: post
    /\ incl (keys pre) others.

(** [t] becomes the most recently used of the texts [l]. *)
Definition touch (t : option str) (l : list (option str))
  : list (option str) :=
  t :: filter (fun k => negb (eqb k t)) l.

(** The texts of a history, each once, most recently used first. *)
Definition recency (history : list (option str)) : list (option str) :=
  fold_left (fun l t => touch t l) history [].

(** ** The vectorizer singleton *)

(** [n] calls of [get_vectorizer()] in a row: the objects returned and
    the globals afterwards. *)
Fixpoint get_vectorizer_calls (n : nat) (g : Tuned.globals)
  : list nat * Tuned.globals :=
  match n with
  | O => ([], g)
  | S n' =>
      let '(v, g1) := Tuned.get_vectorizer g in
      let '(vs, g2) := get_vectorizer_calls n' g1 in
      (v :: vs, g2)
  end.

(** ** A text matched against itself *)








(** ** The sorted vocabulary *)


(** ** More sample instances *)

(** Two texts of the same letters in another order. *)
Definition tide : str := [116; 105; 100; 101]%N.
Definition diet : str := [100; 105; 101; 116]%N.






(* ================================================================== *)
(** * Facts about the Python builtins *)
(* ================================================================== *)

Lemma str_eqb_eq (s t : str) : str_eqb s t = true <-> s = t.
Proof.
  revert t; induction s as [|x s IH]; intros [|y t]; simpl;
    try (split; [discriminate | discriminate]); try tauto.
  unfold char_eqb. rewrite andb_true_iff, N.eqb_eq, IH.
  split; [intros [-> ->]; reflexivity | intros H; inversion H; auto].
Qed.


Lemma eqb_eq (a b : option str) : eqb a b = true <-> a = b.
Proof.
  destruct a as [s|], b as [t|]; simpl;
    try (split; [discriminate | discriminate]); try tauto.
  rewrite str_eqb_eq. split; [intros -> | intros H; inversion H]; auto.
Qed.

Lemma split_nil : split [] = [].
Proof. reflexivity. Qed.

Lemma join_nil_concat (sep : str) (words : list str) :
  join sep words = [] -> List.concat words = [].
Proof.
  induction words as [|w ws IH]; simpl; auto.
  destruct ws as [|w' ws'].
  - intros ->; reflexivity.
  - intros H. apply app_eq_nil in H as [-> H].
    apply app_eq_nil in H as [_ H]. simpl. apply IH, H.
Qed.

(** A non-empty text that the segmenter covers has a non-empty
    preprocessed form. *)
Lemma preprocess_text_covered (lcut : str -> list str) (s : str) :
  List.concat (lcut s) = s -> s <> [] ->
  Main.preprocess_text lcut (Some s) <> [].
Proof.
  intros Hcover Hs Hp. destruct s as [|ch s]; [congruence|].
  simpl in Hp. apply join_nil_concat in Hp. congruence.
Qed.

Lemma tokens_processed_nonempty (lcut : str -> list str) (t : option str) :
  tokens lcut t <> [] -> Main.preprocess_text lcut t <> [].
Proof.
  unfold tokens. intros H Hp. rewrite Hp in H. apply H, split_nil.
Qed.

(* ================================================================== *)
(** * The segmentation cache *)
(* ================================================================== *)

Section Cache.

Variable maxsize : nat.
Variable f : option str -> str.

Local Abbreviation sound := (cache_sound f).

Lemma lookup_sound (key : option str) (c : functools.cache) (v : str) :
  sound c -> functools.lookup key c = Some v -> v = f key.
Proof.
  induction 1 as [|[k w] c Hk Hc IH]; simpl; [discriminate|].
  destruct (eqb k key) eqn:E.
  - apply eqb_eq in E. subst k. intros [= <-]. exact Hk.
  - exact IH.
Qed.

Lemma remove_sound (key : option str) (c : functools.cache) :
  sound c -> sound (functools.remove key c).
Proof.
  induction 1 as [|[k w] c Hk Hc IH]; simpl; [constructor|].
  destruct (eqb k key); [exact Hc | constructor; assumption].
Qed.

Lemma removelast_sound (c : functools.cache) :
  sound c -> sound (removelast c).
Proof.
  induction 1 as [|kv c Hk Hc IH]; simpl; [constructor|].
  destruct c; [constructor | constructor; assumption].
Qed.

Lemma lru_call_value (key : option str) (c : functools.cache) :
  sound c -> fst (functools.lru_call maxsize f key c) = f key.
Proof.
  intros Hc. unfold functools.lru_call.
  destruct (functools.lookup key c) as [v|] eqn:E.
  - simpl. eapply lookup_sound; eassumption.
  - destruct (maxsize <=? List.length c)%nat; reflexivity.
Qed.

Lemma lru_call_sound (key : option str) (c : functools.cache) :
  sound c -> sound (snd (functools.lru_call maxsize f key c)).
Proof.
  intros Hc. unfold functools.lru_call.
  destruct (functools.lookup key c) as [v|] eqn:E.
  - simpl. constructor.
    + simpl. eapply lookup_sound; eassumption.
    + apply remove_sound, Hc.
  - destruct (maxsize <=? List.length c)%nat; simpl; constructor;
      try reflexivity; [apply removelast_sound|]; exact Hc.
Qed.

Lemma remove_length (key : option str) (c : functools.cache) (v : str) :
  functools.lookup key c = Some v ->
  S (List.length (functools.remove key c)) = List.length c.
Proof.
  induction c as [|[k w] c IH]; simpl; [discriminate|].
  destruct (eqb k key); [reflexivity|].
  intros H. simpl. rewrite IH; auto.
Qed.

Lemma removelast_length {A} (l : list A) :
  l <> [] -> S (List.length (removelast l)) = List.length l.
Proof.
  induction l as [|x l IH]; [congruence|]. intros _.
  destruct l as [|y l]; [reflexivity|].
  change (S (S (List.length (removelast (y :: l))))
          = S (List.length (y :: l))).
  rewrite IH; [reflexivity | discriminate].
Qed.

Lemma lru_call_bounded (key : option str) (c : functools.cache) :
  (0 < maxsize)%nat -> (List.length c <= maxsize)%nat ->
  (List.length (snd (functools.lru_call maxsize f key c)) <= maxsize)%nat.
Proof.
  intros Hpos Hlen. unfold functools.lru_call.
  destruct (functools.lookup key c) as [v|] eqn:E.
  - simpl. erewrite remove_length; eauto.
  - destruct (maxsize <=? List.length c)%nat eqn:Hfull; simpl.
    + apply Nat.leb_le in Hfull.
      rewrite removelast_length; [exact Hlen|].
      destruct c; [simpl in Hfull; lia | discriminate].
    + apply Nat.leb_gt in Hfull. lia.
Qed.

End Cache.

Lemma coherent_nil (lcut : str -> list str) : coherent lcut [].
Proof. constructor. Qed.

Lemma preprocess_text_value (lcut : str -> list str) (t : option str)
      (c : functools.cache) :
  coherent lcut c ->
  fst (Tuned.preprocess_text lcut t c) = Main.preprocess_text lcut t.
Proof.
  intros Hc. unfold Tuned.preprocess_text, Tuned.cached_preprocess_text.
  rewrite lru_call_value by exact Hc. reflexivity.
Qed.

Lemma preprocess_text_coherent (lcut : str -> list str) (t : option str)
      (c : functools.cache) :
  coherent lcut c -> coherent lcut (snd (Tuned.preprocess_text lcut t c)).
Proof. intros Hc. apply lru_call_sound, Hc. Qed.

Lemma cache_after_coherent (lcut : str -> list str)
      (history : list (option str)) (c : functools.cache) :
  coherent lcut c -> coherent lcut (cache_after lcut history c).
Proof.
  revert c; induction history as [|t rest IH]; intros c Hc; simpl; auto.
  apply IH. apply (preprocess_text_coherent lcut t c Hc).
Qed.

Lemma cache_after_bounded (lcut : str -> list str)
      (history : list (option str)) (c : functools.cache) :
  (List.length c <= Tuned.maxsize)%nat ->
  (List.length (cache_after lcut history c) <= Tuned.maxsize)%nat.
Proof.
  revert c; induction history as [|t rest IH]; intros c Hc; simpl; auto.
  apply IH. apply lru_call_bounded; [unfold Tuned.maxsize; lia | exact Hc].
Qed.

(** After 1001 different texts the cache is full, the first text has
    been dropped, the second is still there, and asking for the first one
    again computes its segmentation anew. *)
Lemma eviction_example :
  let c := cache_after lcut_chars texts_1001 [] in
  List.length c = 1000%nat
  /\ functools.lookup (Some [1%N]) c = None
  /\ functools.lookup (Some [2%N]) c = Some [2%N]
  /\ fst (Tuned.cached_preprocess_text lcut_chars (Some [1%N]) c) = [1%N].
Proof. vm_compute. repeat split. Qed.

(** C6. Whatever calls came before, hits, misses and evictions alike,
    the cached segmenter returns what the uncached [preprocess_text] of
    [src/main.py] returns on the same text; the cache never holds more
    than 1000 entries. *)
Theorem cached_preprocess_text_refines (lcut : str -> list str)
        (history : list (option str)) (text : option str) :
  fst (Tuned.cached_preprocess_text lcut text (cache_after lcut history []))
  = Main.preprocess_text lcut text
  /\ (List.length (cache_after lcut history []) <= 1000)%nat.
Proof.
  split.
  - apply (preprocess_text_value lcut text).
    apply cache_after_coherent, coherent_nil.
  - apply (cache_after_bounded lcut history []). simpl. lia.
Qed.

(* ================================================================== *)
(** * The tiered scoring policy of src/3223004469/main.py *)
(* ================================================================== *)

(** One call of [preprocess_text] on a coherent cache: name its result
    [p] and the new cache [c'], with what is known of both. *)
Tactic Notation "step_preprocess" constr(lcut) constr(t) constr(c)
       constr(Hc) "as" ident(p) ident(c') ident(Hp) ident(Hc') :=
  pose proof (preprocess_text_value lcut t c Hc) as Hp;
  pose proof (preprocess_text_coherent lcut t c Hc) as Hc';
  destruct (Tuned.preprocess_text lcut t c) as [p c'];
  simpl in Hp, Hc'.

Lemma calculate_similarity_value (lcut : str -> list str)
      (fit : list str -> result matrix) (a b : option str)
      (c : functools.cache) :
  coherent lcut c ->
  fst (Tuned.calculate_similarity lcut fit a b c)
  = Tuned.score_processed fit a b (Main.preprocess_text lcut a)
                          (Main.preprocess_text lcut b).
Proof.
  intros Hc. unfold Tuned.calculate_similarity.
  step_preprocess lcut a c Hc as pa c1 Ha Hc1.
  step_preprocess lcut b c1 Hc1 as pb c2 Hb Hc2.
  simpl. congruence.
Qed.


Lemma is_empty_false {A} (l : list A) : l <> [] -> Tuned.is_empty l = false.
Proof. destruct l; [congruence | reflexivity]. Qed.

Lemma split_nonempty_arg (s : str) : split s <> [] -> s <> [].
Proof. intros H ->. apply H, split_nil. Qed.

(** The score of two texts with one token each, as a function of the
    preprocessed texts. *)
Lemma score_processed_single (fit : list str -> result matrix)
      (a b : option str) (pa pb w1 w2 : str) :
  split pa = [w1] -> split pb = [w2] ->
  Tuned.score_processed fit a b pa pb
  = if str_eqb w1 w2 then Ok 1%R else Tuned.SequenceMatcher_ratio a b.
Proof.
  intros Ha Hb. unfold Tuned.score_processed.
  assert (pa <> []) as Hpa
      by (apply split_nonempty_arg; rewrite Ha; discriminate).
  assert (pb <> []) as Hpb
      by (apply split_nonempty_arg; rewrite Hb; discriminate).
  rewrite (is_empty_false pa Hpa), (is_empty_false pb Hpb). simpl.
  rewrite Ha, Hb. simpl. reflexivity.
Qed.

Lemma matches_hao_huai : difflib.matches hao huai = 0%Z.
Proof. vm_compute. reflexivity. Qed.

Lemma ratio_hao_huai : difflib.ratio hao huai = 0%R.
Proof.
  unfold difflib.ratio. rewrite matches_hao_huai.
  unfold difflib.calculate_ratio. simpl. lra.
Qed.

(** The single-token rule of [src/3223004469/main.py]: two strings with
    one token each score 1.0 when the tokens are equal and the sequence
    ratio of the raw strings otherwise; for 好 and 坏 the score is that
    ratio, it lies in [0, 1], and it is returned whatever the vectorizer
    would do. *)
Lemma single_token_rule (lcut : str -> list str)
        (fit : list str -> result matrix) (c : functools.cache) :
  coherent lcut c ->
  (forall a b w1 w2 : str,
      tokens lcut (Some a) = [w1] -> tokens lcut (Some b) = [w2] ->
      fst (Tuned.calculate_similarity lcut fit (Some a) (Some b) c)
      = Ok (if str_eqb w1 w2 then 1%R else difflib.ratio a b))
  /\ (lcut hao = [hao] -> lcut huai = [huai] ->
      fst (Tuned.calculate_similarity lcut fit (Some hao) (Some huai) c)
      = Ok (difflib.ratio hao huai)
      /\ unit_interval (difflib.ratio hao huai)).
Proof.
  intros Hc.
  assert (forall a b w1 w2 : str,
      tokens lcut (Some a) = [w1] -> tokens lcut (Some b) = [w2] ->
      fst (Tuned.calculate_similarity lcut fit (Some a) (Some b) c)
      = Ok (if str_eqb w1 w2 then 1%R else difflib.ratio a b)) as General.
  { intros a b w1 w2 Ha Hb.
    rewrite calculate_similarity_value by exact Hc.
    rewrite (score_processed_single fit (Some a) (Some b) _ _ _ _ Ha Hb).
    destruct (str_eqb w1 w2); reflexivity. }
  split; [exact General|].
  intros Hhao Hhuai. split.
  - apply (General hao huai hao huai); unfold tokens; simpl;
      [rewrite Hhao | rewrite Hhuai]; reflexivity.
  - rewrite ratio_hao_huai. unfold unit_interval. lra.
Qed.

Lemma single_token_rule_witness :
  fst (Tuned.calculate_similarity lcut_chars ascii_fit_transform
                                  (Some hao) (Some huai) [])
  = Ok (difflib.ratio hao huai)
  /\ unit_interval (difflib.ratio hao huai).
Proof.
  exact (proj2 (single_token_rule lcut_chars ascii_fit_transform []
                                  (coherent_nil lcut_chars))
               eq_refl eq_refl).
Defined.

(** C1, on [src/main.py]. There the pair 好, 坏 is not scored by the
    sequence ratio: both texts are one token of one character, the pair
    goes to the vectorizer, which keeps no term of one character, and the
    call raises the vectorizer's [ValueError]. *)
Theorem Main_single_token_raises (lcut : str -> list str)
        (lower : str -> str) (is_word : char -> bool) :
  lcut hao = [hao] -> lcut huai = [huai] ->
  lower hao = hao -> lower huai = huai ->
  tokens lcut (Some hao) = [hao]
  /\ tokens lcut (Some huai) = [huai]
  /\ Main.calculate_similarity lcut (sklearn.fit_transform lower is_word)
                               (Some hao) (Some huai)
     = Raise sklearn.empty_vocabulary.
Proof.
  intros Hhao Hhuai Hlo1 Hlo2.
  unfold tokens, Main.calculate_similarity. simpl.
  rewrite Hhao, Hhuai. simpl. repeat split.
  unfold sklearn.fit_transform, sklearn.vocabulary, sklearn.analyze.
  simpl map. fold hao huai. rewrite Hlo1, Hlo2.
  assert (forall ch, sklearn.findall is_word [] [ch] = []) as Hnone
      by (intros ch; simpl; destruct (is_word ch); reflexivity).
  unfold hao, huai. rewrite !Hnone. reflexivity.
Qed.

Lemma Main_single_token_raises_witness :
  Main.calculate_similarity lcut_chars ascii_fit_transform
                            (Some hao) (Some huai)
  = Raise sklearn.empty_vocabulary.
Proof.
  exact (proj2 (proj2 (Main_single_token_raises
                         lcut_chars ascii_lower ascii_word
                         eq_refl eq_refl eq_refl eq_refl))).
Defined.

Lemma vector_path_processed (lcut : str -> list str) (a b : option str) :
  vector_path lcut a b ->
  Main.preprocess_text lcut a <> [] /\ Main.preprocess_text lcut b <> [].
Proof.
  intros (Ha & Hb & _). split; apply tokens_processed_nonempty; assumption.
Qed.

Lemma vector_path_strings (lcut : str -> list str) (a b : option str) :
  vector_path lcut a b -> exists x y : str, a = Some x /\ b = Some y.
Proof.
  intros H. destruct (vector_path_processed lcut a b H) as [Ha Hb].
  destruct a as [x|], b as [y|]; try (exfalso; apply Ha; reflexivity);
    try (exfalso; apply Hb; reflexivity).
  exists x, y. split; reflexivity.
Qed.

(** On the vector path the score is the vectorizer's cosine, and a
    failure goes through the [except ValueError] handler. *)
Lemma score_processed_vector (lcut : str -> list str)
      (fit : list str -> result matrix) (a b : option str) :
  vector_path lcut a b ->
  Tuned.score_processed fit a b (Main.preprocess_text lcut a)
                        (Main.preprocess_text lcut b)
  = match
      tfidf_matrix <- fit [Main.preprocess_text lcut a;
                           Main.preprocess_text lcut b];;
      K <- sklearn.cosine_similarity (sklearn.rows tfidf_matrix 0 1)
                                     (sklearn.rows tfidf_matrix 1 2);;
      sklearn.item00 K
    with
    | Ok similarity_score => Ok similarity_score
    | Raise e =>
        if is_ValueError e && contains "empty vocabulary" (exc_msg e)
        then Tuned.SequenceMatcher_ratio a b
        else Raise e
    end.
Proof.
  intros H. destruct (vector_path_processed lcut a b H) as [Hpa Hpb].
  destruct H as (Ha & Hb & Hnot). unfold tokens in *.
  unfold Tuned.score_processed.
  rewrite (is_empty_false _ Hpa), (is_empty_false _ Hpb). simpl.
  rewrite (is_empty_false _ Ha), (is_empty_false _ Hb). simpl.
  assert (((len (split (Main.preprocess_text lcut a)) =? 1)
           && (len (split (Main.preprocess_text lcut b)) =? 1))%Z = false)
    as ->.
  { apply andb_false_iff. unfold len.
    destruct (Z.eqb_spec (Z.of_nat (List.length
                (split (Main.preprocess_text lcut a)))) 1);
      [|left; reflexivity].
    destruct (Z.eqb_spec (Z.of_nat (List.length
                (split (Main.preprocess_text lcut b)))) 1);
      [|right; reflexivity].
    exfalso. apply Hnot. lia. }
  destruct (bind _ _) as [v|e]; [reflexivity|].
  destruct (is_ValueError e); simpl; [|reflexivity].
  destruct (contains _ _); reflexivity.
Qed.

(** C2. On the vector path, when fitting the vectorizer raises, the
    handler returns the sequence ratio of the raw strings if the
    exception is a [ValueError] whose message holds "empty vocabulary",
    as the vectorizer's own empty-vocabulary error does, and raises the
    same exception again in every other case. *)
Theorem vectorizer_failure_policy (lcut : str -> list str)
        (fit : list str -> result matrix) (c : functools.cache)
        (a b : str) (e : exception) :
  coherent lcut c ->
  vector_path lcut (Some a) (Some b) ->
  fit [Main.preprocess_text lcut (Some a);
       Main.preprocess_text lcut (Some b)] = Raise e ->
  (e = sklearn.empty_vocabulary ->
   fst (Tuned.calculate_similarity lcut fit (Some a) (Some b) c)
   = Ok (difflib.ratio a b))
  /\ (is_ValueError e && contains "empty vocabulary" (exc_msg e) = true ->
      fst (Tuned.calculate_similarity lcut fit (Some a) (Some b) c)
      = Ok (difflib.ratio a b))
  /\ (is_ValueError e && contains "empty vocabulary" (exc_msg e) = false ->
      fst (Tuned.calculate_similarity lcut fit (Some a) (Some b) c)
      = Raise e).
Proof.
  intros Hc Hpath Hfit.
  rewrite calculate_similarity_value by exact Hc.
  rewrite (score_processed_vector lcut fit _ _ Hpath), Hfit. simpl.
  split; [|split].
  - intros ->. reflexivity.
  - intros ->. reflexivity.
  - intros ->. reflexivity.
Qed.

Lemma vector_path_ab : vector_path lcut_chars (Some text_ab) (Some text_ab).
Proof.
  unfold vector_path, tokens. simpl.
  repeat split; try discriminate. intros [H _]. discriminate H.
Qed.

Lemma vectorizer_failure_policy_witness :
  fst (Tuned.calculate_similarity lcut_chars ascii_fit_transform
                                  (Some text_ab) (Some text_ab) [])
  = Ok (difflib.ratio text_ab text_ab).
Proof.
  exact (proj1 (vectorizer_failure_policy
                  lcut_chars ascii_fit_transform [] text_ab text_ab
                  sklearn.empty_vocabulary
                  (coherent_nil lcut_chars) vector_path_ab eq_refl)
               eq_refl).
Defined.

Lemma is_empty_true_iff {A} (l : list A) : Tuned.is_empty l = true <-> l = [].
Proof. destruct l; simpl; split; congruence. Qed.

Lemma score_processed_both_empty (fit : list str -> result matrix)
      (a b : option str) :
  Tuned.score_processed fit a b [] [] = Ok 1%R.
Proof. reflexivity. Qed.

Lemma score_processed_one_empty (fit : list str -> result matrix)
      (a b : option str) (pa pb : str) :
  (pa = [] /\ pb <> []) \/ (pa <> [] /\ pb = []) ->
  Tuned.score_processed fit a b pa pb = Ok 0%R.
Proof.
  unfold Tuned.score_processed.
  intros [[-> H]|[H ->]]; rewrite (is_empty_false _ H); reflexivity.
Qed.

Lemma score_processed_no_tokens (fit : list str -> result matrix)
      (a b : option str) (pa pb : str) :
  pa <> [] -> pb <> [] -> split pa = [] -> split pb = [] ->
  Tuned.score_processed fit a b pa pb
  = Ok (if eqb a b then 1%R else 0%R).
Proof.
  intros Ha Hb Hsa Hsb. unfold Tuned.score_processed.
  rewrite (is_empty_false _ Ha), (is_empty_false _ Hb), Hsa, Hsb.
  reflexivity.
Qed.

(** C4. Two inputs whose segmented form is the empty string score 1.0.
    Two strings without any token score 1.0 when the raw strings are
    equal and 0.0 otherwise, for a segmenter whose pieces put together
    give back the text, as jieba's do; this covers the inputs that are
    not empty and still give no token, such as strings of spaces. *)
Theorem both_empty_rule (lcut : str -> list str)
        (fit : list str -> result matrix) (c : functools.cache) :
  coherent lcut c ->
  (forall a b : option str,
      Main.preprocess_text lcut a = [] ->
      Main.preprocess_text lcut b = [] ->
      fst (Tuned.calculate_similarity lcut fit a b c) = Ok 1%R)
  /\ (forall a b : str,
      List.concat (lcut a) = a -> List.concat (lcut b) = b ->
      tokens lcut (Some a) = [] -> tokens lcut (Some b) = [] ->
      fst (Tuned.calculate_similarity lcut fit (Some a) (Some b) c)
      = Ok (if str_eqb a b then 1%R else 0%R)).
Proof.
  intros Hc. split.
  - intros a b Ha Hb. rewrite calculate_similarity_value by exact Hc.
    rewrite Ha, Hb. reflexivity.
  - intros a b Hca Hcb Hta Htb.
    rewrite calculate_similarity_value by exact Hc.
    destruct a as [|x a], b as [|y b].
    + reflexivity.
    + rewrite score_processed_one_empty; [reflexivity|].
      left. split; [reflexivity|].
      apply preprocess_text_covered; [exact Hcb | discriminate].
    + rewrite score_processed_one_empty; [reflexivity|].
      right. split; [|reflexivity].
      apply preprocess_text_covered; [exact Hca | discriminate].
    + apply score_processed_no_tokens; try assumption;
        apply preprocess_text_covered; try assumption; discriminate.
Qed.

Lemma both_empty_rule_witness :
  fst (Tuned.calculate_similarity lcut_chars ascii_fit_transform
                                  (Some [32; 32]%N) (Some [32]%N) [])
  = Ok (if str_eqb [32; 32]%N [32]%N then 1%R else 0%R).
Proof.
  exact (proj2 (both_empty_rule lcut_chars ascii_fit_transform []
                                (coherent_nil lcut_chars))
               [32; 32]%N [32]%N eq_refl eq_refl eq_refl eq_refl).
Defined.


(* ================================================================== *)
(** * The batch entry point *)
(* ================================================================== *)

Lemma preprocess_pairs_value (lcut : str -> list str)
      (text_pairs : list (option str * option str)) (c : functools.cache) :
  coherent lcut c ->
  fst (Tuned.preprocess_pairs lcut text_pairs c) = batch_texts lcut text_pairs
  /\ coherent lcut (snd (Tuned.preprocess_pairs lcut text_pairs c)).
Proof.
  revert c. induction text_pairs as [|[original copied] rest IH];
    intros c Hc; simpl; [split; [reflexivity | exact Hc]|].
  step_preprocess lcut original c Hc as p1 c1 H1 Hc1.
  step_preprocess lcut copied c1 Hc1 as p2 c2 H2 Hc2.
  destruct (IH c2 Hc2) as [H3 Hc3].
  destruct (Tuned.preprocess_pairs lcut rest c2) as [all_texts c3].
  simpl in *. subst. split; [reflexivity | exact Hc3].
Qed.

Lemma calculate_similarity_batch_value (lcut : str -> list str)
      (fit : list str -> result matrix)
      (text_pairs : list (option str * option str)) (c : functools.cache) :
  coherent lcut c -> text_pairs <> [] ->
  fst (Tuned.calculate_similarity_batch lcut fit text_pairs c)
  = (tfidf_matrix <- fit (batch_texts lcut text_pairs);;
     Tuned.similarities_loop
       tfidf_matrix (len (batch_texts lcut text_pairs))
       (Tuned.range_step2 (len (batch_texts lcut text_pairs)))).
Proof.
  intros Hc Hne. unfold Tuned.calculate_similarity_batch.
  destruct text_pairs as [|p rest]; [congruence|].
  destruct (preprocess_pairs_value lcut (p :: rest) c Hc) as [H _].
  destruct (Tuned.preprocess_pairs lcut (p :: rest) c) as [all_texts c'].
  simpl in H. subst all_texts. reflexivity.
Qed.

(** C3, as the code has it. A batch that is not empty and whose
    documents the vectorizer refuses, for an empty vocabulary or anything
    else, raises the vectorizer's exception: no score is returned and no
    pair is scored another way.  The empty batch returns the empty list
    and the vectorizer is not called. *)
Theorem batch_failure_propagates (lcut : str -> list str)
        (fit : list str -> result matrix) (c : functools.cache)
        (text_pairs : list (option str * option str)) (e : exception) :
  coherent lcut c ->
  text_pairs <> [] ->
  fit (batch_texts lcut text_pairs) = Raise e ->
  fst (Tuned.calculate_similarity_batch lcut fit text_pairs c) = Raise e
  /\ Tuned.calculate_similarity_batch lcut fit [] c = (Ok [], c).
Proof.
  intros Hc Hne Hfit. split; [|reflexivity].
  rewrite calculate_similarity_batch_value by assumption.
  rewrite Hfit. reflexivity.
Qed.

Lemma batch_failure_propagates_witness :
  fst (Tuned.calculate_similarity_batch
         lcut_chars ascii_fit_transform [(Some hao, Some huai)] [])
  = Raise sklearn.empty_vocabulary.
Proof.
  refine (proj1 (batch_failure_propagates
                   lcut_chars ascii_fit_transform []
                   [(Some hao, Some huai)] sklearn.empty_vocabulary
                   (coherent_nil lcut_chars) _ eq_refl)).
  discriminate.
Defined.

(** The vectorizer refuses the documents of the empty batch, and yet the
    batch call returns a result. *)
Lemma batch_empty_returns :
  ascii_fit_transform (batch_texts lcut_chars [])
  = Raise sklearn.empty_vocabulary
  /\ fst (Tuned.calculate_similarity_batch lcut_chars ascii_fit_transform
                                           [] [])
     = Ok []
  /\ ~ (exists e, fst (Tuned.calculate_similarity_batch
                         lcut_chars ascii_fit_transform [] [])
                  = Raise e).
Proof.
  repeat split. intros [e H]. discriminate H.
Qed.

(* ================================================================== *)
(** * The sequence ratio lies between 0 and 1 *)
(* ================================================================== *)

Section SequenceMatcher.
Local Open Scope Z_scope.

Section FindLongestMatch.
Variables (a b : str) (alo ahi blo bhi : Z).

Lemma dict_get_row (i j : Z) (d : list (Z * Z)) :
  row_dict alo blo bhi i d ->
  difflib.dict_get d j 0 = 0
  \/ (1 <= difflib.dict_get d j 0 <= i - alo + 1
      /\ difflib.dict_get d j 0 <= j - blo + 1).
Proof.
  induction 1 as [|[j' k] d H Hd IH]; simpl; [left; reflexivity|].
  destruct (Z.eqb_spec j' j); [subst; simpl in H; right; lia | exact IH].
Qed.

Lemma scan_row_good (i : Z) (js : list Z) :
  forall (j2len newj2len : list (Z * Z)) (best : difflib.Match),
    alo <= i ->
    row_dict alo blo bhi (i - 1) j2len ->
    row_dict alo blo bhi i newj2len ->
    good_match alo (i + 1) blo bhi best ->
    row_dict alo blo bhi i
             (fst (difflib.scan_row blo bhi i js j2len newj2len best))
    /\ good_match alo (i + 1) blo bhi
                  (snd (difflib.scan_row blo bhi i js j2len newj2len best)).
Proof.
  induction js as [|j js IH]; intros j2len newj2len best Hi Hd Hn Hb;
    simpl; [split; assumption|].
  destruct (Z.ltb_spec j blo); [apply IH; assumption|].
  destruct (Z.leb_spec bhi j); [split; assumption|].
  pose proof (dict_get_row (i - 1) (j - 1) j2len Hd) as Hk.
  set (k := difflib.dict_get j2len (j - 1) 0 + 1) in *.
  apply IH; try assumption.
  - constructor; [simpl; lia | exact Hn].
  - destruct best as [[bi bj] bs]. unfold difflib.size. simpl.
    destruct (Z.ltb_spec bs k); [|exact Hb].
    unfold good_match in *. lia.
Qed.

Lemma scan_rows_good (rows : list Z) :
  forall (i0 : Z) (j2len : list (Z * Z)) (best : difflib.Match),
    consecutive i0 rows -> alo <= i0 ->
    row_dict alo blo bhi (i0 - 1) j2len ->
    good_match alo i0 blo bhi best ->
    good_match alo (i0 + len rows) blo bhi
               (difflib.scan_rows a b blo bhi rows j2len best).
Proof.
  induction rows as [|i rows IH]; intros i0 j2len best Hrows Hi Hd Hb.
  - simpl. unfold len. simpl. rewrite Z.add_0_r. exact Hb.
  - destruct Hrows as [-> Hrows]. simpl.
    assert (good_match alo (i0 + 1) blo bhi best) as Hb'.
    { destruct best as [[bi bj] bs]. unfold good_match in *. lia. }
    pose proof (scan_row_good i0
                  (match getitem a i0 with
                   | Some x => difflib.b2j b x
                   | None => []
                   end) j2len [] best Hi Hd (Forall_nil _) Hb') as [H1 H2].
    destruct (difflib.scan_row _ _ _ _ _ _ _) as [newj2len best'].
    simpl in H1, H2.
    replace (i0 + len (i0 :: rows)) with ((i0 + 1) + len rows)
      by (unfold len; simpl List.length; lia).
    apply IH; try assumption; try lia.
    replace (i0 + 1 - 1) with i0 by lia. exact H1.
Qed.

Lemma range_consecutive (lo hi : Z) : consecutive lo (range lo hi).
Proof.
  unfold range. generalize (Z.to_nat (hi - lo)) as n. intros n.
  assert (forall k lo', lo' = lo + Z.of_nat k ->
            consecutive lo' (map (fun k => lo + Z.of_nat k) (seq k n))) as H.
  { induction n as [|n IH]; intros k lo' ->; simpl; [exact I|].
    split; [reflexivity|]. apply IH. lia. }
  apply (H 0%nat). simpl. lia.
Qed.

Lemma range_len (lo hi : Z) : lo <= hi -> len (range lo hi) = hi - lo.
Proof.
  intros H. unfold range, len. rewrite length_map, length_seq. lia.
Qed.

Lemma extend_left_good (n : nat) :
  forall m, good_match alo ahi blo bhi m ->
            good_match alo ahi blo bhi (difflib.extend_left n a b alo blo m).
Proof.
  induction n as [|n IH]; intros [[bi bj] bs] H; simpl; [exact H|].
  destruct (Z.ltb_spec alo bi); simpl; [|exact H].
  destruct (Z.ltb_spec blo bj); simpl; [|exact H].
  destruct (difflib.same_at a b (bi - 1) (bj - 1)); [|exact H].
  apply IH. unfold good_match in *. lia.
Qed.

Lemma extend_right_good (n : nat) :
  forall m, good_match alo ahi blo bhi m ->
            good_match alo ahi blo bhi (difflib.extend_right n a b ahi bhi m).
Proof.
  induction n as [|n IH]; intros [[bi bj] bs] H; simpl; [exact H|].
  destruct (Z.ltb_spec (bi + bs) ahi); simpl; [|exact H].
  destruct (Z.ltb_spec (bj + bs) bhi); simpl; [|exact H].
  destruct (difflib.same_at a b (bi + bs) (bj + bs)); [|exact H].
  apply IH. unfold good_match in *. lia.
Qed.

Lemma find_longest_match_good :
  alo <= ahi -> blo <= bhi ->
  good_match alo ahi blo bhi
             (difflib.find_longest_match a b alo ahi blo bhi).
Proof.
  intros Ha Hb. unfold difflib.find_longest_match.
  apply extend_right_good, extend_left_good.
  assert (good_match alo alo blo bhi (alo, blo, 0)) as H0
    by (unfold good_match; lia).
  pose proof (scan_rows_good (range alo ahi) alo [] (alo, blo, 0)
                (range_consecutive alo ahi) (Z.le_refl alo)
                (Forall_nil _) H0) as H.
  rewrite range_len in H by exact Ha.
  replace (alo + (ahi - alo)) with ahi in H by lia. exact H.
Qed.
End FindLongestMatch.

Lemma total_size_app (xs ys : list difflib.Match) :
  total_size (xs ++ ys) = total_size xs + total_size ys.
Proof.
  induction xs as [|x xs IH]; [reflexivity|].
  change (difflib.size x + total_size (xs ++ ys)
          = difflib.size x + total_size xs + total_size ys).
  rewrite IH. lia.
Qed.

Lemma span_a_cons (alo ahi blo bhi : Z) (queue : list (Z * Z * Z * Z)) :
  span_a ((alo, ahi, blo, bhi) :: queue) = ahi - alo + span_a queue.
Proof. reflexivity. Qed.

Lemma span_b_cons (alo ahi blo bhi : Z) (queue : list (Z * Z * Z * Z)) :
  span_b ((alo, ahi, blo, bhi) :: queue) = bhi - blo + span_b queue.
Proof. reflexivity. Qed.

Lemma rounds_cons (alo ahi blo bhi : Z) (queue : list (Z * Z * Z * Z)) :
  rounds ((alo, ahi, blo, bhi) :: queue) = 2 * (ahi - alo) + 1 + rounds queue.
Proof. reflexivity. Qed.

Lemma queue_nonneg (queue : list (Z * Z * Z * Z)) :
  Forall valid_range queue ->
  0 <= span_a queue /\ 0 <= span_b queue /\ 0 <= rounds queue.
Proof.
  induction 1 as [|q queue H Hq IH]; [cbv; intuition discriminate|].
  destruct q as [[[alo ahi] blo] bhi]. destruct H as [H1 H2].
  rewrite span_a_cons, span_b_cons, rounds_cons. lia.
Qed.

Section Blocks.
Variables a b : str.

Lemma blocks_loop_spec (fuel : nat) :
  forall (queue : list (Z * Z * Z * Z)) (blocks : list difflib.Match),
    Forall valid_range queue ->
    rounds queue <= Z.of_nat fuel ->
    exists result,
      difflib.blocks_loop fuel a b queue blocks = Some result
      /\ total_size blocks <= total_size result
      /\ total_size result <= total_size blocks + span_a queue
      /\ total_size result <= total_size blocks + span_b queue.
Proof.
  induction fuel as [|fuel IH]; intros queue blocks Hq Hfuel.
  - destruct queue as [|[[[alo ahi] blo] bhi] queue].
    + exists blocks. cbn. repeat split; lia.
    + exfalso. inversion Hq as [|? ? Hv Hq']; subst. destruct Hv as [H1 H2].
      destruct (queue_nonneg queue Hq') as (_ & _ & H).
      rewrite rounds_cons in Hfuel. lia.
  - destruct queue as [|[[[alo ahi] blo] bhi] queue].
    + exists blocks. cbn. repeat split; lia.
    + inversion Hq as [|? ? Hv Hq']; subst. destruct Hv as [H1 H2].
      destruct (queue_nonneg queue Hq') as (Hsa & Hsb & Hr).
      pose proof (find_longest_match_good a b alo ahi blo bhi H1 H2) as Hm.
      rewrite rounds_cons in Hfuel. rewrite span_a_cons, span_b_cons.
      cbn [difflib.blocks_loop].
      destruct (difflib.find_longest_match a b alo ahi blo bhi)
        as [[i j] k] eqn:E.
      unfold good_match in Hm.
      destruct (Z.eqb_spec k 0) as [->|Hk].
      * destruct (IH queue blocks Hq') as (r & Hr1 & Hr2 & Hr3 & Hr4);
          [lia|].
        exists r. repeat split; try assumption; lia.
      * set (q1 := if ((alo <? i) && (blo <? j))%bool
                   then (alo, i, blo, j) :: queue else queue).
        set (q2 := if ((i + k <? ahi) && (j + k <? bhi))%bool
                   then (i + k, ahi, j + k, bhi) :: q1 else q1).
        assert (Forall valid_range q1
                /\ 0 <= span_a q1 - span_a queue <= i - alo
                /\ 0 <= span_b q1 - span_b queue <= j - blo
                /\ rounds q1 - rounds queue <= 2 * (i - alo) + 1)
          as (V1 & A1 & B1 & R1).
        { unfold q1. destruct (Z.ltb_spec alo i);
            [destruct (Z.ltb_spec blo j)|]; cbn [andb].
          - rewrite span_a_cons, span_b_cons, rounds_cons.
            split; [constructor; [unfold valid_range; lia | exact Hq']|].
            lia.
          - split; [exact Hq'|]. lia.
          - split; [exact Hq'|]. lia. }
        destruct (queue_nonneg q1 V1) as (Hsa1 & Hsb1 & Hr1').
        assert (Forall valid_range q2
                /\ 0 <= span_a q2 - span_a q1 <= ahi - (i + k)
                /\ 0 <= span_b q2 - span_b q1 <= bhi - (j + k)
                /\ rounds q2 - rounds q1 <= 2 * (ahi - (i + k)) + 1)
          as (V2 & A2 & B2 & R2).
        { unfold q2. destruct (Z.ltb_spec (i + k) ahi);
            [destruct (Z.ltb_spec (j + k) bhi)|]; cbn [andb].
          - rewrite span_a_cons, span_b_cons, rounds_cons.
            split; [constructor; [unfold valid_range; lia | exact V1]|].
            lia.
          - split; [exact V1|]. lia.
          - split; [exact V1|]. lia. }
        destruct (IH q2 (blocks ++ [(i, j, k)]) V2)
          as (r & Hr1 & Hr2 & Hr3 & Hr4); [lia|].
        rewrite total_size_app in Hr2, Hr3, Hr4.
        change (total_size [(i, j, k)]) with (k + 0) in Hr2, Hr3, Hr4.
        exists r. repeat split; try assumption; lia.
Qed.

Lemma get_matching_blocks_spec :
  exists blocks,
    difflib.get_matching_blocks a b = Some blocks
    /\ 0 <= total_size blocks <= len a
    /\ total_size blocks <= len b.
Proof.
  unfold difflib.get_matching_blocks.
  destruct (blocks_loop_spec (2 * List.length a + 1)
              [(0, len a, 0, len b)] [])
    as (r & H1 & H2 & H3 & H4).
  - constructor; [unfold valid_range, len; lia | constructor].
  - rewrite rounds_cons. unfold len. change (rounds []) with 0. lia.
  - exists r. rewrite span_a_cons in H3. rewrite span_b_cons in H4.
    change (total_size []) with 0 in *.
    change (span_a []) with 0 in *. change (span_b []) with 0 in *.
    split; [exact H1|]. lia.
Qed.


(** The work-list loop of [get_matching_blocks] ends within the rounds
    it is given. *)
Lemma blocks_loop_total : difflib.get_matching_blocks a b <> None.
Proof.
  destruct get_matching_blocks_spec as (blocks & H & _). congruence.
Qed.

End Blocks.

End SequenceMatcher.

(* ================================================================== *)
(** * The vector path: TF-IDF rows and their cosine *)
(* ================================================================== *)

Section Cosine.
Local Open Scope R_scope.


Lemma sum_squares_cons (x : R) (row : list R) :
  sklearn.sum_squares (x :: row) = x * x + sklearn.sum_squares row.
Proof. reflexivity. Qed.

Lemma sum_squares_nonneg (row : list R) : 0 <= sklearn.sum_squares row.
Proof.
  induction row as [|x row IH]; [cbv; lra|].
  rewrite sum_squares_cons. nra.
Qed.






Lemma dot_cons (x y : R) (xs ys : list R) :
  sklearn.dot (x :: xs) (y :: ys) = x * y + sklearn.dot xs ys.
Proof. reflexivity. Qed.




Lemma norm_nonneg (row : list R) : 0 <= sklearn.norm row.
Proof. apply sqrt_pos. Qed.

Lemma normalize_nonneg (row : list R) :
  nonneg_row row -> nonneg_row (sklearn.normalize row).
Proof.
  intros H. unfold sklearn.normalize.
  destruct (Req_dec_T (sklearn.norm row) 0) as [E|E]; [exact H|].
  pose proof (norm_nonneg row) as Hn.
  unfold nonneg_row in *. rewrite Forall_map.
  eapply Forall_impl; [|exact H]. intros x Hx. simpl.
  apply Rmult_le_pos; [exact Hx|].
  apply Rlt_le, Rinv_0_lt_compat. lra.
Qed.




Lemma idf_ge_1 (n df : nat) : (df <= n)%nat -> 1 <= sklearn.idf n df.
Proof.
  intros H. unfold sklearn.idf. apply le_INR in H.
  pose proof (pos_INR df) as Hdf.
  assert (1 <= (1 + INR n) / (1 + INR df)) as Hq.
  { apply (Rmult_le_reg_r (1 + INR df)); [lra|].
    unfold Rdiv. rewrite Rmult_assoc, Rinv_l by lra. lra. }
  destruct Hq as [Hq|Hq].
  - pose proof (ln_increasing 1 _ Rlt_0_1 Hq) as Hln. rewrite ln_1 in Hln. lra.
  - rewrite <- Hq, ln_1. lra.
Qed.

Lemma document_frequency_le (t : str) (docs : list (list str)) :
  (sklearn.document_frequency t docs <= List.length docs)%nat.
Proof.
  unfold sklearn.document_frequency.
  induction docs as [|d docs IH]; simpl; [lia|].
  destruct (negb _); simpl; lia.
Qed.

Lemma weight_nonneg (docs : list (list str)) (terms t : str) (d : list str) :
  0 <= INR (sklearn.count t d)
       * sklearn.idf (List.length docs) (sklearn.document_frequency t docs).
Proof.
  pose proof (idf_ge_1 _ _ (document_frequency_le t docs)).
  pose proof (pos_INR (sklearn.count t d)). nra.
Qed.

Lemma tfidf_row_nonneg (vocabulary : list str) (docs : list (list str))
      (d : list str) :
  nonneg_row (sklearn.tfidf_row vocabulary docs d).
Proof.
  unfold sklearn.tfidf_row. apply normalize_nonneg.
  unfold nonneg_row. rewrite Forall_map. apply Forall_forall.
  intros t _. apply (weight_nonneg docs t t d).
Qed.















End Cosine.





(* ================================================================== *)
(** * Rounding and writing the score *)
(* ================================================================== *)

Section Rounding.
Local Open Scope R_scope.




Lemma round_half_even_IZR (z : Z) : builtins.round_half_even (IZR z) = z.
Proof.
  assert (Int_part (IZR z) = z) as E.
  { symmetry. apply Int_part_spec. lra. }
  unfold builtins.round_half_even. rewrite E.
  destruct (Rlt_dec (IZR z - IZR z) (1 / 2)); [reflexivity | lra].
Qed.




End Rounding.



(* ================================================================== *)
(** * The command line *)
(* ================================================================== *)

Lemma round2_0 : builtins.round2 0 = 0%Z.
Proof.
  unfold builtins.round2. replace (0 * 100)%R with (IZR 0) by lra.
  apply round_half_even_IZR.
Qed.

Lemma round2_1 : builtins.round2 1 = 100%Z.
Proof.
  unfold builtins.round2. replace (1 * 100)%R with (IZR 100) by lra.
  apply round_half_even_IZR.
Qed.

(** [main] of [src/3223004469/main.py] with a wrong number of arguments:
    the usage message, and nothing else. *)
Lemma Tuned_main_usage (lcut : str -> list str)
      (fit : list str -> result matrix) (argv : list string)
      (fs : OS.filesystem) (c : functools.cache) :
  len argv <> 4%Z ->
  Tuned.main lcut fit argv fs c
  = ([OS.UsageError; OS.UsageSyntax], fs, c, Ok tt).
Proof.
  intros H. unfold Tuned.main.
  destruct (Z.eqb_spec (len argv) 4) as [E|E]; [contradiction | reflexivity].
Qed.

(** [main] of [src/3223004469/main.py] when a file cannot be read: the
    message, and nothing is written. *)
Lemma Tuned_main_read_failed (lcut : str -> list str)
      (fit : list str -> result matrix) (prog p1 p2 out : string)
      (fs : OS.filesystem) (c : functools.cache) :
  fst (OS.read_file fs p1) = None \/ fst (OS.read_file fs p2) = None ->
  exists lines,
    Tuned.main lcut fit [prog; p1; p2; out] fs c = (lines, fs, c, Ok tt)
    /\ In OS.ReadFailed lines.
Proof.
  intros H. unfold Tuned.main. simpl.
  destruct (OS.read_file fs p1) as [t1 out1].
  destruct (OS.read_file fs p2) as [t2 out2]. simpl in H.
  destruct t1 as [s1|], t2 as [s2|];
    try (destruct H; discriminate);
    (eexists; split; [reflexivity|]);
    rewrite !in_app_iff; right; right; left; reflexivity.
Qed.

(** [main] of [src/main.py] with too few arguments: the usage message,
    then [IndexError]. *)
Lemma Main_main_too_few (lcut : str -> list str)
      (fit : list str -> result matrix) (fs : OS.filesystem) :
  Main.main lcut fit ["main.py"; "orig.txt"]%string fs
  = ([OS.UsageError; OS.UsageSyntax], fs,
     Raise (Exc IndexError "list index out of range")).
Proof. reflexivity. Qed.

(** C5, on [src/main.py]. With four arguments after the program name the
    usage message is printed, and the run goes on: it reads the first two
    files and writes the score to the third path.  The other [main]
    stops after the message. *)
Theorem Main_main_usage_then_writes (lcut : str -> list str)
        (fit : list str -> result matrix) :
  len argv_five <> 4%Z
  /\ two_empty_files "out.txt"%string = None
  /\ Main.main lcut fit argv_five two_empty_files
     = ([OS.UsageError; OS.UsageSyntax],
        OS.put two_empty_files "out.txt" (builtins.of_string "1.0"),
        Ok tt)
  /\ Tuned.main lcut fit argv_five two_empty_files []
     = ([OS.UsageError; OS.UsageSyntax], two_empty_files, [], Ok tt).
Proof.
  split; [discriminate|]. split; [reflexivity|]. split.
  - unfold Main.main, argv_five. simpl.
    unfold OS.write_result. rewrite round2_1. reflexivity.
  - apply Tuned_main_usage. discriminate.
Qed.



(* ================================================================== *)
(** * Tokens, [str.split()] and [str.strip()] *)
(* ================================================================== *)

Lemma no_space_rev (s : str) : no_space (rev s) = no_space s.
Proof.
  unfold no_space. induction s as [|ch s IH]; [reflexivity|].
  simpl. rewrite forallb_app, IH. simpl. rewrite andb_true_r. apply andb_comm.
Qed.


(** ** [str.split()] *)

Lemma split_from_tokens (s : str) :
  forall cur, no_space cur = true ->
  Forall (fun w => w <> [] /\ no_space w = true) (split_from cur s).
Proof.
  induction s as [|ch s IH]; intros cur Hcur; simpl.
  - destruct cur as [|x cur]; [constructor|].
    constructor; [|constructor]. split.
    + intros H. apply (f_equal (@List.length char)) in H.
      rewrite length_rev in H. discriminate.
    + rewrite no_space_rev. exact Hcur.
  - destruct (isspace ch) eqn:E.
    + destruct cur as [|x cur]; [apply IH; reflexivity|].
      constructor; [|apply IH; reflexivity]. split.
      * intros H. apply (f_equal (@List.length char)) in H.
        rewrite length_rev in H. discriminate.
      * rewrite no_space_rev. exact Hcur.
    + apply IH. simpl. rewrite E. exact Hcur.
Qed.

Lemma split_from_nil_iff (s : str) :
  forall cur, split_from cur s = [] <-> cur = [] /\ all_space s = true.
Proof.
  induction s as [|ch s IH]; intros cur; simpl.
  - destruct cur; split; try tauto; try discriminate.
    intros [H _]. discriminate.
  - destruct (isspace ch) eqn:E; simpl.
    + destruct cur as [|x cur].
      * rewrite IH. tauto.
      * split; [discriminate | intros [H _]; discriminate].
    + rewrite IH.
      split; [intros [H _]; discriminate | intros [_ H]; discriminate].
Qed.

Lemma split_from_sep (a b : str) (sp : char) :
  isspace sp = true ->
  forall cur,
    split_from cur (a ++ sp :: b) = split_from cur a ++ split_from [] b.
Proof.
  intros Hsp. induction a as [|ch a IH]; intros cur; simpl.
  - rewrite Hsp. destruct cur; reflexivity.
  - destruct (isspace ch).
    + destruct cur; simpl; rewrite IH; reflexivity.
    + apply IH.
Qed.

Lemma split_join_space (words : list str) :
  split (join space words) = flat_map split words.
Proof.
  induction words as [|w ws IH]; [reflexivity|].
  destruct ws as [|w' ws'].
  - simpl. rewrite app_nil_r. reflexivity.
  - assert (join space (w :: w' :: ws')
            = w ++ 32%N :: join space (w' :: ws')) as -> by reflexivity.
    unfold split in *. rewrite split_from_sep by reflexivity.
    rewrite IH. reflexivity.
Qed.

Lemma all_space_app (a b : str) :
  all_space (a ++ b) = all_space a && all_space b.
Proof. apply forallb_app. Qed.

Lemma flat_map_split_nil (words : list str) :
  flat_map split words = [] <-> all_space (List.concat words) = true.
Proof.
  induction words as [|w ws IH]; simpl; [tauto|].
  rewrite all_space_app, andb_true_iff, <- IH. unfold split.
  split.
  - intros H. apply app_eq_nil in H as [H1 H2].
    apply split_from_nil_iff in H1. tauto.
  - intros [H1 H2]. rewrite H2, app_nil_r. apply split_from_nil_iff. tauto.
Qed.

Lemma tokens_as_pieces (lcut : str -> list str) (s : str) :
  s <> [] -> tokens lcut (Some s) = flat_map split (lcut s).
Proof.
  intros Hs. unfold tokens. destruct s as [|ch s]; [congruence|].
  simpl. apply split_join_space.
Qed.

(** X1. The tokens the tuned scorer counts, the pieces [split()] cuts
    the space-joined segmentation into, are never empty and hold no
    whitespace, whatever the segmenter returns. *)
Theorem tokens_shape (lcut : str -> list str) (text : option str) :
  Forall (fun w => w <> [] /\ no_space w = true) (tokens lcut text).
Proof. unfold tokens, split. apply split_from_tokens. reflexivity. Qed.

(** X2. For a segmenter whose pieces put together give back the text, a
    string has no token exactly when it holds whitespace only, the empty
    string included. *)
Theorem no_token_iff_blank (lcut : str -> list str) (s : str) :
  List.concat (lcut s) = s ->
  (tokens lcut (Some s) = [] <-> all_space s = true).
Proof.
  intros Hcover. destruct s as [|ch s]; [simpl; split; reflexivity|].
  rewrite tokens_as_pieces by discriminate.
  rewrite flat_map_split_nil, Hcover. reflexivity.
Qed.

Lemma no_token_iff_blank_witness :
  tokens lcut_chars (Some [32%N; 32%N]) = []
  <-> all_space [32%N; 32%N] = true.
Proof.
  apply (no_token_iff_blank lcut_chars [32%N; 32%N]). reflexivity.
Defined.

(** ** [str.strip()] *)





(* ================================================================== *)
(** * The sequence ratio of a text with itself *)
(* ================================================================== *)

Section SelfRatio.
Local Open Scope Z_scope.

Section SelfMatch.
Variable s : str.
Variables alo ahi : Z.
Hypothesis alo_nonneg : 0 <= alo.
Hypothesis ahi_le : ahi <= len s.















End SelfMatch.



End SelfRatio.

(* ================================================================== *)
(** * The vector path does not depend on the order of the two texts *)
(* ================================================================== *)

(** ** The order of the vocabulary *)












Lemma dot_comm (x : list R) : forall y, sklearn.dot x y = sklearn.dot y x.
Proof.
  induction x as [|v x IH]; intros [|w y]; try reflexivity.
  rewrite !dot_cons, IH. lra.
Qed.


(* ================================================================== *)
(** * Both versions with scikit-learn's vectorizer *)
(* ================================================================== *)


Lemma Main_is_empty_false (s : str) : s <> [] -> Main.is_empty s = false.
Proof. destruct s; [congruence | reflexivity]. Qed.

(** [src/main.py] on two texts that are not empty after preprocessing. *)
Lemma Main_score_vector (lcut : str -> list str)
      (fit : list str -> result matrix) (a b : option str) :
  Main.preprocess_text lcut a <> [] -> Main.preprocess_text lcut b <> [] ->
  Main.calculate_similarity lcut fit a b
  = (tfidf_matrix <- fit [Main.preprocess_text lcut a;
                          Main.preprocess_text lcut b];;
     K <- sklearn.cosine_similarity (sklearn.rows tfidf_matrix 0 1)
                                    (sklearn.rows tfidf_matrix 1 2);;
     sklearn.item00 K).
Proof.
  intros Ha Hb. unfold Main.calculate_similarity.
  rewrite (Main_is_empty_false _ Ha), (Main_is_empty_false _ Hb). reflexivity.
Qed.

Lemma Main_score_degenerate (lcut : str -> list str)
      (fit : list str -> result matrix) (a b : option str) :
  Main.preprocess_text lcut a = [] \/ Main.preprocess_text lcut b = [] ->
  Main.calculate_similarity lcut fit a b
  = Tuned.score_processed fit a b (Main.preprocess_text lcut a)
                          (Main.preprocess_text lcut b).
Proof.
  unfold Main.calculate_similarity, Tuned.score_processed.
  intros [H|H]; rewrite H.
  - destruct (Main.preprocess_text lcut b); reflexivity.
  - destruct (Main.preprocess_text lcut a); reflexivity.
Qed.

(** The two rows the vectorizer returns for two documents. *)
Lemma fit_two (lower : str -> str) (is_word : char -> bool) (p q : str) :
  sklearn.fit_transform lower is_word [p; q] = Raise sklearn.empty_vocabulary
  /\ sklearn.vocabulary lower is_word [p; q] = []
  \/ exists r0 r1,
      sklearn.fit_transform lower is_word [p; q] = Ok [r0; r1]
      /\ sklearn.vocabulary lower is_word [p; q] <> []
      /\ nonneg_row r0 /\ nonneg_row r1.
Proof.
  unfold sklearn.fit_transform.
  destruct (sklearn.vocabulary lower is_word [p; q]) as [|t ts];
    [left; split; reflexivity|].
  right. do 2 eexists. split; [reflexivity|]. split; [discriminate|].
  split; apply tfidf_row_nonneg.
Qed.

Lemma pipeline_two (r0 r1 : list R) :
  (K <- sklearn.cosine_similarity (sklearn.rows [r0; r1] 0 1)
                                  (sklearn.rows [r0; r1] 1 2);;
   sklearn.item00 K)
  = Ok (sklearn.dot (sklearn.normalize r0) (sklearn.normalize r1)).
Proof. reflexivity. Qed.

(** X3. With scikit-learn's vectorizer [calculate_similarity] of
    [src/main.py] raises nothing but the vectorizer's empty-vocabulary
    error, and raises it exactly when both preprocessed texts are not
    empty and together hold no term. *)
Theorem Main_raises_iff (lcut : str -> list str)
        (lower : str -> str) (is_word : char -> bool) (a b : option str) :
  (forall e,
      Main.calculate_similarity lcut (sklearn.fit_transform lower is_word) a b
      = Raise e ->
      e = sklearn.empty_vocabulary)
  /\ (Main.calculate_similarity lcut (sklearn.fit_transform lower is_word) a b
      = Raise sklearn.empty_vocabulary
      <-> Main.preprocess_text lcut a <> []
          /\ Main.preprocess_text lcut b <> []
          /\ sklearn.vocabulary lower is_word
               [Main.preprocess_text lcut a; Main.preprocess_text lcut b] = []).
Proof.
  destruct (Main.preprocess_text lcut a) as [|x pa] eqn:Ea.
  { rewrite Main_score_degenerate by (left; exact Ea). rewrite Ea. split.
    - intros e. destruct (Main.preprocess_text lcut b); discriminate.
    - split; [destruct (Main.preprocess_text lcut b); discriminate|].
      intros [H _]. congruence. }
  destruct (Main.preprocess_text lcut b) as [|y pb] eqn:Eb.
  { rewrite Main_score_degenerate by (right; exact Eb). rewrite Ea, Eb. split.
    - intros e. discriminate.
    - split; [discriminate|]. intros (_ & H & _). congruence. }
  rewrite Main_score_vector by congruence. rewrite Ea, Eb.
  destruct (fit_two lower is_word (x :: pa) (y :: pb))
    as [[H1 H2]|(r0 & r1 & H1 & H2 & _)]; rewrite H1.
  - split; [intros e [= <-]; reflexivity|].
    split; [intros _; repeat split; try discriminate; exact H2 | reflexivity].
  - cbn [bind]. rewrite pipeline_two. split; [intros e; discriminate|].
    split; [discriminate|]. intros (_ & _ & H). congruence.
Qed.






(** X6. Where one preprocessed text is empty, or the pair is scored on
    the vector path, the tuned version returns the score [src/main.py]
    returns; where [src/main.py] raises the empty-vocabulary error the
    tuned version returns the sequence ratio of the raw strings, and any
    other exception is raised by both. *)
Theorem versions_agree (lcut : str -> list str)
        (fit : list str -> result matrix) (c : functools.cache)
        (a b : option str) :
  coherent lcut c ->
  Main.preprocess_text lcut a = [] \/ Main.preprocess_text lcut b = []
  \/ vector_path lcut a b ->
  fst (Tuned.calculate_similarity lcut fit a b c)
  = match Main.calculate_similarity lcut fit a b with
    | Ok v => Ok v
    | Raise e =>
        if is_ValueError e && contains "empty vocabulary" (exc_msg e)
        then Tuned.SequenceMatcher_ratio a b
        else Raise e
    end.
Proof.
  intros Hc H. rewrite calculate_similarity_value by exact Hc.
  destruct H as [H|[H|H]].
  - rewrite Main_score_degenerate by (left; exact H). rewrite H.
    destruct (Main.preprocess_text lcut b); reflexivity.
  - rewrite Main_score_degenerate by (right; exact H). rewrite H.
    destruct (Main.preprocess_text lcut a); reflexivity.
  - destruct (vector_path_processed lcut a b H) as [Ha Hb].
    rewrite (score_processed_vector lcut fit a b H).
    rewrite (Main_score_vector lcut fit a b Ha Hb). reflexivity.
Qed.

Lemma versions_agree_witness :
  fst (Tuned.calculate_similarity
         lcut_chars ascii_fit_transform None (Some hao) [])
  = match Main.calculate_similarity
            lcut_chars ascii_fit_transform None (Some hao) with
    | Ok v => Ok v
    | Raise e =>
        if is_ValueError e && contains "empty vocabulary" (exc_msg e)
        then Tuned.SequenceMatcher_ratio None (Some hao)
        else Raise e
    end.
Proof.
  apply (versions_agree lcut_chars ascii_fit_transform [] None (Some hao)).
  - apply coherent_nil.
  - left. reflexivity.
Defined.

(** X7. A text that is not empty scores 0.0 against the empty string, in
    either order and in both versions, for a segmenter whose pieces put
    together give back the text. *)
Theorem one_empty_rule (lcut : str -> list str)
        (fit : list str -> result matrix) (c : functools.cache) (T : str) :
  coherent lcut c -> List.concat (lcut T) = T -> T <> [] ->
  Main.calculate_similarity lcut fit (Some T) (Some []) = Ok 0%R
  /\ Main.calculate_similarity lcut fit (Some []) (Some T) = Ok 0%R
  /\ fst (Tuned.calculate_similarity lcut fit (Some T) (Some []) c) = Ok 0%R
  /\ fst (Tuned.calculate_similarity lcut fit (Some []) (Some T) c) = Ok 0%R.
Proof.
  intros Hc Hcover HT.
  pose proof (preprocess_text_covered lcut T Hcover HT) as Hp.
  assert (Tuned.score_processed fit (Some T) (Some [])
            (Main.preprocess_text lcut (Some T)) [] = Ok 0%R) as H1
      by (apply score_processed_one_empty; right; split;
          [exact Hp | reflexivity]).
  assert (Tuned.score_processed fit (Some []) (Some T) []
            (Main.preprocess_text lcut (Some T)) = Ok 0%R) as H2
      by (apply score_processed_one_empty; left; split;
          [reflexivity | exact Hp]).
  repeat split.
  - rewrite Main_score_degenerate by (right; reflexivity). exact H1.
  - rewrite Main_score_degenerate by (left; reflexivity). exact H2.
  - rewrite calculate_similarity_value by exact Hc. exact H1.
  - rewrite calculate_similarity_value by exact Hc. exact H2.
Qed.

Lemma one_empty_rule_witness :
  Main.calculate_similarity lcut_chars ascii_fit_transform
                            (Some hao) (Some []) = Ok 0%R
  /\ Main.calculate_similarity lcut_chars ascii_fit_transform
                               (Some []) (Some hao) = Ok 0%R
  /\ fst (Tuned.calculate_similarity lcut_chars ascii_fit_transform
                                     (Some hao) (Some []) []) = Ok 0%R
  /\ fst (Tuned.calculate_similarity lcut_chars ascii_fit_transform
                                     (Some []) (Some hao) []) = Ok 0%R.
Proof.
  apply (one_empty_rule lcut_chars ascii_fit_transform [] hao).
  - apply coherent_nil.
  - reflexivity.
  - discriminate.
Defined.

(** ** Batches *)

Lemma batch_texts_len (lcut : str -> list str)
      (text_pairs : list (option str * option str)) :
  len (batch_texts lcut text_pairs) = (2 * len text_pairs)%Z.
Proof.
  unfold len, batch_texts.
  induction text_pairs as [|p rest IH]; [reflexivity|].
  cbn [flat_map]. rewrite length_app. cbn [List.length]. lia.
Qed.

Lemma range_step2_even (n : nat) :
  Tuned.range_step2 (2 * Z.of_nat n)
  = map (fun k => (2 * Z.of_nat k)%Z) (seq 0 n).
Proof.
  unfold Tuned.range_step2. f_equal. f_equal.
  replace ((2 * Z.of_nat n + 1) / 2)%Z with (Z.of_nat n).
  - apply Nat2Z.id.
  - apply Z.div_unique with (r := 1%Z); lia.
Qed.

Lemma similarities_loop_scores (m : matrix) (n : Z) (steps : list Z) :
  Forall (fun i => (i + 1 < n)%Z) steps ->
  forall vs, Tuned.similarities_loop m n steps = Ok vs ->
             map (pair_score m) steps = map Ok vs.
Proof.
  induction 1 as [|i steps Hi Hsteps IH]; intros vs; simpl.
  - intros [= <-]. reflexivity.
  - destruct (Z.ltb_spec (i + 1) n); [|lia].
    unfold pair_score at 1.
    destruct (sklearn.cosine_similarity _ _) as [K|e]; [|discriminate]. simpl.
    destruct (sklearn.item00 K) as [w|e]; [|discriminate]. simpl.
    destruct (Tuned.similarities_loop m n steps) as [rest|e];
      [|discriminate]. simpl.
    intros [= <-]. simpl. f_equal. apply IH. reflexivity.
Qed.

Lemma steps_in_range (n : nat) :
  Forall (fun i => (i + 1 < 2 * Z.of_nat n)%Z)
         (map (fun k => (2 * Z.of_nat k)%Z) (seq 0 n)).
Proof.
  apply Forall_forall. intros i Hi. apply in_map_iff in Hi as (k & <- & Hk).
  apply in_seq in Hk. lia.
Qed.

(** X8. A batch that is not empty and returns, returns one score per
    pair, in the order of the pairs: the score at position [k] is the
    cosine of the rows [2k] and [2k + 1] of the one matrix fitted on all
    the texts of the batch. *)
Theorem batch_scores_by_position (lcut : str -> list str)
        (fit : list str -> result matrix) (c : functools.cache)
        (text_pairs : list (option str * option str)) (vs : list R) :
  coherent lcut c ->
  text_pairs <> [] ->
  fst (Tuned.calculate_similarity_batch lcut fit text_pairs c) = Ok vs ->
  List.length vs = List.length text_pairs
  /\ exists m,
      fit (batch_texts lcut text_pairs) = Ok m
      /\ forall k : nat,
          (k < List.length text_pairs)%nat ->
          pair_score m (2 * Z.of_nat k) = Ok (nth k vs 0%R).
Proof.
  intros Hc Hne. rewrite calculate_similarity_batch_value by assumption.
  destruct (fit (batch_texts lcut text_pairs)) as [m|e]; [|discriminate].
  cbn [bind]. rewrite batch_texts_len. unfold len at 1 2.
  rewrite range_step2_even. intros Hloop.
  pose proof (similarities_loop_scores m _ _
                (steps_in_range (List.length text_pairs)) vs Hloop) as Hmap.
  assert (List.length vs = List.length text_pairs) as Hlen.
  { apply (f_equal (@List.length _)) in Hmap.
    rewrite !length_map, length_seq in Hmap. congruence. }
  split; [exact Hlen|]. exists m. split; [reflexivity|].
  intros k Hk.
  apply (f_equal (fun l => nth k l (Ok 0%R))) in Hmap.
  rewrite (map_nth Ok vs 0%R k) in Hmap. rewrite <- Hmap.
  rewrite map_map.
  change (pair_score m (2 * Z.of_nat k))
    with ((fun x => pair_score m (2 * Z.of_nat x)) k).
  erewrite nth_indep by (rewrite length_map, length_seq; exact Hk).
  rewrite (map_nth (fun x => pair_score m (2 * Z.of_nat x)) (seq 0 _) 0%nat k).
  rewrite seq_nth by exact Hk. reflexivity.
Qed.

Lemma batch_scores_by_position_witness :
  exists vs : list R,
    fst (Tuned.calculate_similarity_batch
           lcut_whole ascii_fit_transform
           [(Some text_ab_cd, Some text_ab)] []) = Ok vs
    /\ List.length vs = 1%nat
    /\ exists m,
        ascii_fit_transform
          (batch_texts lcut_whole [(Some text_ab_cd, Some text_ab)]) = Ok m
        /\ forall k : nat,
            (k < 1)%nat -> pair_score m (2 * Z.of_nat k) = Ok (nth k vs 0%R).
Proof.
  eexists. split; [reflexivity|].
  refine (batch_scores_by_position
            lcut_whole ascii_fit_transform []
            [(Some text_ab_cd, Some text_ab)] _
            (coherent_nil lcut_whole) _ eq_refl).
  discriminate.
Defined.

Lemma batch_one_pair_texts (lcut : str -> list str) (a b : option str) :
  batch_texts lcut [(a, b)]
  = [Main.preprocess_text lcut a; Main.preprocess_text lcut b].
Proof. reflexivity. Qed.

(** X9. A batch of one pair of texts that are not empty after
    preprocessing returns the one score [src/main.py] gives the pair and
    raises what [src/main.py] raises: the batch has neither the
    single-token rule nor the fallback of the pair scorer. *)
Theorem batch_of_one_pair (lcut : str -> list str)
        (fit : list str -> result matrix) (c : functools.cache)
        (a b : option str) :
  coherent lcut c ->
  Main.preprocess_text lcut a <> [] -> Main.preprocess_text lcut b <> [] ->
  fst (Tuned.calculate_similarity_batch lcut fit [(a, b)] c)
  = (v <- Main.calculate_similarity lcut fit a b;; Ok [v]).
Proof.
  intros Hc Ha Hb.
  rewrite calculate_similarity_batch_value by (exact Hc || discriminate).
  rewrite (Main_score_vector lcut fit a b Ha Hb), batch_one_pair_texts.
  destruct (fit _) as [m|e]; [|reflexivity]. cbn [bind].
  change (Tuned.range_step2 _) with [0%Z]. cbn [Tuned.similarities_loop].
  change (0 + 1
          <? len [Main.preprocess_text lcut a; Main.preprocess_text lcut b])%Z
    with true. cbn iota.
  change (0 + 1)%Z with 1%Z. change (0 + 2)%Z with 2%Z.
  destruct (sklearn.cosine_similarity _ _) as [K|e]; [|reflexivity].
  cbn [bind]. destruct (sklearn.item00 K); reflexivity.
Qed.

Lemma batch_of_one_pair_witness :
  fst (Tuned.calculate_similarity_batch
         lcut_chars ascii_fit_transform [(Some hao, Some huai)] [])
  = (v <- Main.calculate_similarity
            lcut_chars ascii_fit_transform (Some hao) (Some huai);;
     Ok [v]).
Proof.
  apply (batch_of_one_pair lcut_chars ascii_fit_transform []
                           (Some hao) (Some huai)).
  - apply coherent_nil.
  - discriminate.
  - discriminate.
Defined.

Lemma skipn_batch_texts (lcut : str -> list str) (k : nat) :
  forall text_pairs,
    skipn (2 * k) (batch_texts lcut text_pairs)
    = batch_texts lcut (skipn k text_pairs).
Proof.
  induction k as [|k IH]; intros text_pairs; [reflexivity|].
  destruct text_pairs as [|p rest]; [reflexivity|].
  replace (2 * S k)%nat with (S (S (2 * k))) by lia.
  change (batch_texts lcut (p :: rest))
    with (Main.preprocess_text lcut (fst p)
          :: Main.preprocess_text lcut (snd p) :: batch_texts lcut rest).
  cbn [skipn]. apply IH.
Qed.

Lemma skipn_nth_error {A} (l : list A) (k : nat) (x : A) :
  nth_error l k = Some x -> exists rest, skipn k l = x :: rest.
Proof.
  revert l; induction k as [|k IH]; intros [|y l]; simpl; try discriminate.
  - intros [= ->]. eauto.
  - apply IH.
Qed.

(** The score at position [k] of a batch: the cosine of the rows of the
    two texts of pair [k]. *)
Lemma pair_score_at (lcut : str -> list str) (f : str -> list R)
      (text_pairs : list (option str * option str)) (k : nat)
      (a b : option str) :
  nth_error text_pairs k = Some (a, b) ->
  pair_score (map f (batch_texts lcut text_pairs)) (2 * Z.of_nat k)
  = Ok (sklearn.dot
          (sklearn.normalize (f (Main.preprocess_text lcut a)))
          (sklearn.normalize (f (Main.preprocess_text lcut b)))).
Proof.
  intros Hk. destruct (skipn_nth_error _ _ _ Hk) as [rest Hrest].
  unfold pair_score, sklearn.rows.
  replace (Z.to_nat (2 * Z.of_nat k)) with (2 * k)%nat by lia.
  replace (Z.to_nat (2 * Z.of_nat k + 1 - 2 * Z.of_nat k)) with 1%nat by lia.
  replace (Z.to_nat (2 * Z.of_nat k + 1)) with (S (2 * k)) by lia.
  replace (Z.to_nat (2 * Z.of_nat k + 2 - (2 * Z.of_nat k + 1))) with 1%nat
    by lia.
  rewrite !skipn_map. change (S (2 * k)) with (1 + 2 * k)%nat.
  rewrite <- skipn_skipn, skipn_batch_texts, Hrest. reflexivity.
Qed.

Lemma zero_row_dot (x y : list R) :
  Forall (fun v => v = 0%R) x -> sklearn.dot (sklearn.normalize x) y = 0%R.
Proof.
  intros Hx.
  assert (sklearn.sum_squares x = 0%R) as Hss.
  { induction Hx as [|v x -> Hx IH]; [reflexivity|].
    rewrite sum_squares_cons, IH. lra. }
  assert (sklearn.normalize x = x) as ->.
  { unfold sklearn.normalize, sklearn.norm. rewrite Hss, sqrt_0.
    destruct (Req_dec_T 0 0); [reflexivity | congruence]. }
  revert y. induction Hx as [|v x -> Hx IH]; intros y; [reflexivity|].
  destruct y as [|w y]; [reflexivity|].
  rewrite dot_cons, IH; [lra|].
  rewrite sum_squares_cons in Hss.
  pose proof (sum_squares_nonneg x). lra.
Qed.

Lemma tfidf_row_no_terms (vocabulary : list str) (docs : list (list str)) :
  Forall (fun v => v = 0%R) (sklearn.tfidf_row vocabulary docs []).
Proof.
  assert (Forall (fun v => v = 0%R)
            (map (fun t => (INR (sklearn.count t [])
                            * sklearn.idf (List.length docs)
                                (sklearn.document_frequency t docs))%R)
                 vocabulary)) as H.
  { rewrite Forall_map. apply Forall_forall. intros t _.
    change (sklearn.count t []) with 0%nat. simpl. lra. }
  unfold sklearn.tfidf_row, sklearn.normalize, sklearn.norm.
  assert (sklearn.sum_squares
            (map (fun t => (INR (sklearn.count t [])
                            * sklearn.idf (List.length docs)
                                (sklearn.document_frequency t docs))%R)
                 vocabulary) = 0%R) as Hss.
  { induction H as [|v x -> Hx IH]; [reflexivity|].
    rewrite sum_squares_cons, IH. lra. }
  rewrite Hss, sqrt_0. destruct (Req_dec_T 0 0); [exact H | congruence].
Qed.

Lemma similarities_loop_ok (m : matrix) (n : Z) (steps : list Z) :
  Forall (fun i => exists v, pair_score m i = Ok v) steps ->
  exists vs, Tuned.similarities_loop m n steps = Ok vs.
Proof.
  induction 1 as [|i steps [v Hv] Hsteps [vs IH]]; simpl;
    [eexists; reflexivity|].
  destruct (i + 1 <? n)%Z; [|eexists; exact IH].
  unfold pair_score in Hv.
  destruct (sklearn.cosine_similarity _ _) as [K|e]; [|discriminate].
  cbn [bind] in *. rewrite Hv, IH. eexists; reflexivity.
Qed.

Lemma sklearn_batch_fit (lcut : str -> list str) (lower : str -> str)
      (is_word : char -> bool)
      (text_pairs : list (option str * option str)) :
  sklearn.vocabulary lower is_word (batch_texts lcut text_pairs) <> [] ->
  sklearn.fit_transform lower is_word (batch_texts lcut text_pairs)
  = Ok (map (fun p =>
               sklearn.tfidf_row
                 (sklearn.vocabulary lower is_word
                                     (batch_texts lcut text_pairs))
                 (map (sklearn.analyze lower is_word)
                      (batch_texts lcut text_pairs))
                 (sklearn.analyze lower is_word p))
            (batch_texts lcut text_pairs)).
Proof.
  intros Hv. unfold sklearn.fit_transform.
  destruct (sklearn.vocabulary lower is_word (batch_texts lcut text_pairs))
    as [|t ts]; [congruence|].
  rewrite map_map. reflexivity.
Qed.

Lemma sklearn_batch_scores (lcut : str -> list str) (lower : str -> str)
      (is_word : char -> bool) (c : functools.cache)
      (text_pairs : list (option str * option str)) :
  coherent lcut c -> text_pairs <> [] ->
  sklearn.vocabulary lower is_word (batch_texts lcut text_pairs) <> [] ->
  exists vs,
    fst (Tuned.calculate_similarity_batch
           lcut (sklearn.fit_transform lower is_word) text_pairs c) = Ok vs
    /\ List.length vs = List.length text_pairs
    /\ forall k a b,
        nth_error text_pairs k = Some (a, b) ->
        nth_error vs k
        = Some (sklearn.dot
                  (sklearn.normalize
                     (batch_row lcut lower is_word text_pairs a))
                  (sklearn.normalize
                     (batch_row lcut lower is_word text_pairs b))).
Proof.
  intros Hc Hne Hv.
  rewrite calculate_similarity_batch_value by assumption.
  rewrite (sklearn_batch_fit lcut lower is_word text_pairs Hv). cbn [bind].
  set (f := fun p => sklearn.tfidf_row _ _ (sklearn.analyze lower is_word p)).
  rewrite batch_texts_len. unfold len. rewrite range_step2_even.
  destruct (similarities_loop_ok
              (map f (batch_texts lcut text_pairs))
              (2 * Z.of_nat (List.length text_pairs))
              (map (fun k => (2 * Z.of_nat k)%Z)
                   (seq 0 (List.length text_pairs)))) as [vs Hvs].
  { apply Forall_forall. intros i Hi.
    apply in_map_iff in Hi as (k & <- & Hk). apply in_seq in Hk.
    destruct (nth_error text_pairs k) as [[a b]|] eqn:E.
    - eexists. apply (pair_score_at lcut f text_pairs k a b E).
    - apply nth_error_None in E. lia. }
  exists vs. split; [exact Hvs|].
  pose proof (similarities_loop_scores _ _ _
                (steps_in_range (List.length text_pairs)) vs Hvs) as Hmap.
  split.
  - apply (f_equal (@List.length _)) in Hmap.
    rewrite !length_map, length_seq in Hmap. congruence.
  - intros k a b E.
    assert (k < List.length text_pairs)%nat as Hk
        by (apply nth_error_Some; congruence).
    apply (f_equal (fun l => nth_error l k)) in Hmap.
    rewrite map_map, !nth_error_map in Hmap.
    rewrite (nth_error_nth' (seq 0 (List.length text_pairs)) 0%nat) in Hmap
      by (rewrite length_seq; exact Hk).
    rewrite seq_nth in Hmap by exact Hk. cbn [option_map plus] in Hmap.
    rewrite (pair_score_at lcut f text_pairs k a b E) in Hmap.
    destruct (nth_error vs k) as [v|]; [|discriminate].
    cbn [option_map] in Hmap. injection Hmap as <-. reflexivity.
Qed.

(** X10. With scikit-learn's vectorizer a batch that is not empty raises
    the empty-vocabulary error when its texts together hold no term, and
    returns one score per pair otherwise. *)
Theorem batch_fails_only_on_empty_vocabulary
        (lcut : str -> list str) (lower : str -> str)
        (is_word : char -> bool) (c : functools.cache)
        (text_pairs : list (option str * option str)) :
  coherent lcut c -> text_pairs <> [] ->
  (sklearn.vocabulary lower is_word (batch_texts lcut text_pairs) = [] ->
   fst (Tuned.calculate_similarity_batch
          lcut (sklearn.fit_transform lower is_word) text_pairs c)
   = Raise sklearn.empty_vocabulary)
  /\ (sklearn.vocabulary lower is_word (batch_texts lcut text_pairs) <> [] ->
      exists vs,
        fst (Tuned.calculate_similarity_batch
               lcut (sklearn.fit_transform lower is_word) text_pairs c)
        = Ok vs
        /\ List.length vs = List.length text_pairs).
Proof.
  intros Hc Hne. split.
  - intros Hv. rewrite calculate_similarity_batch_value by assumption.
    unfold sklearn.fit_transform. rewrite Hv. reflexivity.
  - intros Hv.
    destruct (sklearn_batch_scores lcut lower is_word c text_pairs Hc Hne Hv)
      as (vs & H1 & H2 & _).
    exists vs. split; assumption.
Qed.

Lemma batch_fails_only_on_empty_vocabulary_witness :
  (sklearn.vocabulary ascii_lower ascii_word
                      (batch_texts lcut_chars [(Some hao, Some huai)]) = [] ->
   fst (Tuned.calculate_similarity_batch
          lcut_chars (sklearn.fit_transform ascii_lower ascii_word)
          [(Some hao, Some huai)] [])
   = Raise sklearn.empty_vocabulary)
  /\ (sklearn.vocabulary ascii_lower ascii_word
                         (batch_texts lcut_chars [(Some hao, Some huai)])
      <> [] ->
      exists vs,
        fst (Tuned.calculate_similarity_batch
               lcut_chars (sklearn.fit_transform ascii_lower ascii_word)
               [(Some hao, Some huai)] [])
        = Ok vs
        /\ List.length vs = List.length [(Some hao, Some huai)]).
Proof.
  apply (batch_fails_only_on_empty_vocabulary
           lcut_chars ascii_lower ascii_word [] [(Some hao, Some huai)]).
  - apply coherent_nil.
  - discriminate.
Defined.

(** X11. In a batch that returns, a pair with a text that holds no term
    scores 0.0, whatever the other text is: two empty texts, which the
    pair scorer gives 1.0, score 0.0 in a batch. *)
Theorem batch_ignores_empty_rules
        (lcut : str -> list str) (lower : str -> str)
        (is_word : char -> bool) (c : functools.cache)
        (text_pairs : list (option str * option str)) (vs : list R)
        (k : nat) (a b : option str) :
  coherent lcut c ->
  fst (Tuned.calculate_similarity_batch
         lcut (sklearn.fit_transform lower is_word) text_pairs c) = Ok vs ->
  nth_error text_pairs k = Some (a, b) ->
  sklearn.analyze lower is_word (Main.preprocess_text lcut a) = []
  \/ sklearn.analyze lower is_word (Main.preprocess_text lcut b) = [] ->
  nth_error vs k = Some 0%R.
Proof.
  intros Hc Hvs Hk Hterms.
  assert (text_pairs <> []) as Hne by (destruct text_pairs, k; discriminate).
  destruct (sklearn.vocabulary lower is_word (batch_texts lcut text_pairs))
    as [|t ts] eqn:Ev.
  { rewrite calculate_similarity_batch_value in Hvs by assumption.
    unfold sklearn.fit_transform in Hvs. rewrite Ev in Hvs. discriminate. }
  destruct (sklearn_batch_scores lcut lower is_word c text_pairs Hc Hne)
    as (vs' & H1 & _ & H3); [congruence|].
  rewrite H1 in Hvs. injection Hvs as <-.
  rewrite (H3 k a b Hk). f_equal. unfold batch_row.
  destruct Hterms as [-> | ->].
  - apply zero_row_dot, tfidf_row_no_terms.
  - rewrite dot_comm. apply zero_row_dot, tfidf_row_no_terms.
Qed.

Lemma batch_ignores_empty_rules_witness :
  exists vs : list R,
    fst (Tuned.calculate_similarity_batch
           lcut_whole ascii_fit_transform
           [(Some text_ab_cd, Some text_ab); (None, None)] []) = Ok vs
    /\ nth_error vs 1 = Some 0%R.
Proof.
  eexists. split; [reflexivity|].
  refine (batch_ignores_empty_rules
            lcut_whole ascii_lower ascii_word []
            [(Some text_ab_cd, Some text_ab); (None, None)] _ 1 None None
            (coherent_nil lcut_whole) eq_refl eq_refl _).
  left. reflexivity.
Defined.

(* ================================================================== *)
(** * Identical texts, and the order of the two texts *)
(* ================================================================== *)









(* ================================================================== *)
(** * The sequence ratio depends on the order of the two texts *)
(* ================================================================== *)

Lemma ratio_tide_diet : difflib.ratio tide diet = (1 / 4)%R.
Proof.
  unfold difflib.ratio.
  replace (difflib.matches tide diet) with 1%Z by (vm_compute; reflexivity).
  unfold difflib.calculate_ratio. simpl. lra.
Qed.

Lemma ratio_diet_tide : difflib.ratio diet tide = (1 / 2)%R.
Proof.
  unfold difflib.ratio.
  replace (difflib.matches diet tide) with 2%Z by (vm_compute; reflexivity).
  unfold difflib.calculate_ratio. simpl. lra.
Qed.

(** X15. The sequence ratio depends on the order of its arguments, and
    so does the tuned scorer where it uses it: for a segmenter that keeps
    the words tide and diet whole, tide against diet scores 0.25 and diet
    against tide scores 0.5. *)
Theorem score_not_symmetric (lcut : str -> list str)
        (fit : list str -> result matrix) (c : functools.cache) :
  coherent lcut c -> lcut tide = [tide] -> lcut diet = [diet] ->
  fst (Tuned.calculate_similarity lcut fit (Some tide) (Some diet) c)
  = Ok (1 / 4)%R
  /\ fst (Tuned.calculate_similarity lcut fit (Some diet) (Some tide) c)
     = Ok (1 / 2)%R.
Proof.
  intros Hc Ht Hd.
  assert (Main.preprocess_text lcut (Some tide) = tide) as Pt
      by (unfold Main.preprocess_text, tide in *; rewrite Ht; reflexivity).
  assert (Main.preprocess_text lcut (Some diet) = diet) as Pd
      by (unfold Main.preprocess_text, diet in *; rewrite Hd; reflexivity).
  rewrite !calculate_similarity_value by exact Hc. rewrite Pt, Pd.
  rewrite (score_processed_single fit (Some tide) (Some diet) tide diet
             tide diet eq_refl eq_refl).
  rewrite (score_processed_single fit (Some diet) (Some tide) diet tide
             diet tide eq_refl eq_refl).
  simpl. rewrite ratio_tide_diet, ratio_diet_tide. split; reflexivity.
Qed.

Lemma score_not_symmetric_witness :
  fst (Tuned.calculate_similarity
         lcut_whole ascii_fit_transform (Some tide) (Some diet) [])
  = Ok (1 / 4)%R
  /\ fst (Tuned.calculate_similarity
            lcut_whole ascii_fit_transform (Some diet) (Some tide) [])
     = Ok (1 / 2)%R.
Proof.
  exact (score_not_symmetric lcut_whole ascii_fit_transform []
                             (coherent_nil lcut_whole) eq_refl eq_refl).
Defined.

(* ================================================================== *)
(** * The cache as a recency list *)
(* ================================================================== *)

Lemma key_eqb_refl (k : option str) : eqb k k = true.
Proof. apply eqb_eq. reflexivity. Qed.

Lemma key_eqb_neq (k k' : option str) : k <> k' -> eqb k k' = false.
Proof.
  intros H. destruct (eqb k k') eqn:E; [|reflexivity].
  apply eqb_eq in E. contradiction.
Qed.

Lemma key_in_dec (key : option str) (l : list (option str)) :
  In key l \/ ~ In key l.
Proof.
  induction l as [|k l [IH|IH]]; simpl; [tauto | tauto |].
  destruct (eqb k key) eqn:E.
  - apply eqb_eq in E. tauto.
  - right. intros [H|H]; [|tauto]. subst. rewrite key_eqb_refl in E.
    discriminate.
Qed.

Lemma lookup_None (key : option str) (c : functools.cache) :
  functools.lookup key c = None <-> ~ In key (keys c).
Proof.
  induction c as [|[k v] c IH]; simpl; [tauto|].
  destruct (eqb k key) eqn:E.
  - apply eqb_eq in E. split; [discriminate | tauto].
  - rewrite IH. split; [|tauto].
    intros H [H'|H']; [|tauto]. subst. rewrite key_eqb_refl in E. discriminate.
Qed.

Lemma remove_keys (key : option str) (c : functools.cache) :
  NoDup (keys c) ->
  NoDup (keys (functools.remove key c))
  /\ ~ In key (keys (functools.remove key c))
  /\ incl (keys (functools.remove key c)) (keys c).
Proof.
  induction c as [|[k v] c IH]; simpl; intros Hnd.
  - repeat split; [constructor | tauto | apply incl_refl].
  - inversion Hnd as [|? ? Hk Hc]; subst.
    destruct (eqb k key) eqn:E.
    + apply eqb_eq in E. subst k. repeat split; try assumption.
      apply incl_tl, incl_refl.
    + destruct (IH Hc) as (H1 & H2 & H3). repeat split.
      * simpl. constructor; [|exact H1]. intros H. apply Hk, H3, H.
      * simpl. intros [H|H]; [|tauto]. subst. rewrite key_eqb_refl in E.
        discriminate.
      * simpl. apply incl_cons; [left; reflexivity|].
        apply incl_tl. exact H3.
Qed.

Lemma removelast_keys (c : functools.cache) :
  NoDup (keys c) ->
  NoDup (keys (removelast c)) /\ incl (keys (removelast c)) (keys c).
Proof.
  induction c as [|[k v] c IH]; intros Hnd;
    [split; [constructor | apply incl_refl]|].
  inversion Hnd as [|? ? Hk Hc]; subst.
  destruct c as [|kv c']; [split; [constructor | apply incl_nil_l]|].
  destruct (IH Hc) as [H1 H2].
  change (removelast ((k, v) :: kv :: c'))
    with ((k, v) :: removelast (kv :: c')).
  split.
  - simpl. constructor; [|exact H1]. intros H. apply Hk, H2, H.
  - simpl. apply incl_cons; [left; reflexivity|]. apply incl_tl, H2.
Qed.

Lemma lru_call_nodup (maxsize : nat) (f : option str -> str)
      (key : option str) (c : functools.cache) :
  NoDup (keys c) -> NoDup (keys (snd (functools.lru_call maxsize f key c))).
Proof.
  intros Hnd. unfold functools.lru_call.
  destruct (functools.lookup key c) as [v|] eqn:E.
  - destruct (remove_keys key c Hnd) as (H1 & H2 & _).
    simpl. constructor; assumption.
  - apply lookup_None in E.
    destruct (maxsize <=? List.length c)%nat; simpl; constructor;
      try assumption.
    + destruct (removelast_keys c Hnd) as [_ H]. intros H'. apply E, H, H'.
    + apply removelast_keys, Hnd.
Qed.

Lemma lru_call_front (maxsize : nat) (f : option str -> str)
      (key : option str) (c : functools.cache) :
  exists rest,
    snd (functools.lru_call maxsize f key c)
    = (key, fst (functools.lru_call maxsize f key c)) :: rest.
Proof.
  unfold functools.lru_call.
  destruct (functools.lookup key c) as [v|]; [eexists; reflexivity|].
  destruct (maxsize <=? List.length c)%nat; eexists; reflexivity.
Qed.

Lemma remove_app_in (key : option str) (pre post : functools.cache) :
  In key (keys pre) ->
  exists pre', functools.remove key (pre ++ post) = pre' ++ post
               /\ incl (keys pre') (keys pre).
Proof.
  induction pre as [|[k v] pre IH]; simpl; [tauto|].
  destruct (eqb k key) eqn:E.
  - intros _. exists pre. split; [reflexivity | apply incl_tl, incl_refl].
  - intros [H|H]; [subst; rewrite key_eqb_refl in E; discriminate|].
    destruct (IH H) as (pre' & H1 & H2). exists ((k, v) :: pre').
    rewrite H1. split; [reflexivity|]. simpl.
    apply incl_cons; [left; reflexivity | apply incl_tl, H2].
Qed.

Lemma remove_app_notin (key : option str) (pre post : functools.cache) :
  ~ In key (keys pre) ->
  functools.remove key (pre ++ post) = pre ++ functools.remove key post.
Proof.
  induction pre as [|[k v] pre IH]; simpl; [reflexivity|].
  intros H. rewrite key_eqb_neq by tauto. rewrite IH by tauto. reflexivity.
Qed.

Lemma removelast_app_cons {A} (pre : list A) (x y : A) (post : list A) :
  removelast (pre ++ x :: y :: post) = pre ++ x :: removelast (y :: post).
Proof.
  rewrite removelast_app by discriminate. reflexivity.
Qed.

Lemma lru_call_behind (maxsize : nat) (f : option str -> str)
      (others : list (option str)) (t key : option str)
      (c : functools.cache) :
  NoDup (keys c) -> (List.length c <= maxsize)%nat ->
  (List.length others < maxsize)%nat ->
  key = t \/ In key others ->
  behind others t c ->
  behind others t (snd (functools.lru_call maxsize f key c)).
Proof.
  intros Hnd Hlen Hothers Hkey (pre & v & post & -> & Hpre).
  destruct (eqb key t) eqn:Ekt.
  { (* the call asks for [t]: it moves to the front *)
    apply eqb_eq in Ekt. subst key.
    destruct (lru_call_front maxsize f t (pre ++ (t, v) :: post))
      as [rest ->].
    exists []. eexists. exists rest.
    split; [reflexivity | apply incl_nil_l]. }
  assert (key <> t) as Hneq
      by (intros ->; rewrite key_eqb_refl in Ekt; discriminate).
  assert (In key others) as Hin by tauto.
  unfold functools.lru_call.
  destruct (functools.lookup key (pre ++ (t, v) :: post)) as [w|] eqn:E.
  - (* a hit on another key *)
    simpl. destruct (key_in_dec key (keys pre)) as [Hp|Hp].
    + destruct (remove_app_in key pre ((t, v) :: post) Hp) as (pre' & -> & Hi).
      exists ((key, w) :: pre'), v, post. split; [reflexivity|].
      simpl. apply incl_cons; [exact Hin|].
      intros x Hx. apply Hpre, Hi, Hx.
    + rewrite remove_app_notin by exact Hp. simpl.
      rewrite key_eqb_neq by congruence.
      exists ((key, w) :: pre), v, (functools.remove key post).
      split; [reflexivity|]. simpl. apply incl_cons; assumption.
  - (* a miss *)
    apply lookup_None in E.
    destruct (maxsize <=? List.length (pre ++ (t, v) :: post))%nat eqn:Hfull;
      simpl.
    + destruct post as [|y post].
      * exfalso. apply Nat.leb_le in Hfull.
        rewrite length_app in Hfull, Hlen. simpl in Hfull, Hlen.
        assert (NoDup (key :: keys pre)) as Hnd'.
        { constructor.
          - intros H. apply E. unfold keys. rewrite map_app.
            apply in_or_app. left. exact H.
          - unfold keys in Hnd. rewrite map_app in Hnd.
            apply NoDup_app_remove_r in Hnd. exact Hnd. }
        assert (incl (key :: keys pre) others) as Hincl
            by (apply incl_cons; assumption).
        pose proof (NoDup_incl_length Hnd' Hincl) as Hl.
        simpl in Hl. unfold keys in Hl. rewrite length_map in Hl. lia.
      * rewrite removelast_app_cons.
        exists ((key, f key) :: pre), v, (removelast (y :: post)).
        split; [reflexivity|]. simpl. apply incl_cons; assumption.
    + exists ((key, f key) :: pre), v, post.
      split; [reflexivity|]. simpl. apply incl_cons; assumption.
Qed.

Lemma cache_after_app (lcut : str -> list str)
      (h1 h2 : list (option str)) (c : functools.cache) :
  cache_after lcut (h1 ++ h2) c = cache_after lcut h2 (cache_after lcut h1 c).
Proof.
  revert c; induction h1 as [|t h1 IH]; intros c; [reflexivity|].
  simpl. apply IH.
Qed.

Lemma cache_after_nodup (lcut : str -> list str)
      (history : list (option str)) (c : functools.cache) :
  NoDup (keys c) -> NoDup (keys (cache_after lcut history c)).
Proof.
  revert c; induction history as [|t rest IH]; intros c Hc; [exact Hc|].
  simpl. apply IH. apply lru_call_nodup. exact Hc.
Qed.

(** X16. After any history of calls the cache holds every text at most
    once. *)
Theorem cache_keys_distinct (lcut : str -> list str)
        (history : list (option str)) :
  NoDup (keys (cache_after lcut history [])).
Proof. apply cache_after_nodup. constructor. Qed.

Lemma behind_lookup (others : list (option str)) (t : option str)
      (c : functools.cache) :
  behind others t c -> functools.lookup t c <> None.
Proof.
  intros (pre & v & post & -> & _) H. rewrite lookup_None in H. apply H.
  unfold keys. rewrite map_app. apply in_or_app. right. left. reflexivity.
Qed.

Lemma cache_after_behind (lcut : str -> list str)
      (others : list (option str)) (t : option str)
      (history : list (option str)) :
  (List.length others < Tuned.maxsize)%nat ->
  Forall (fun k => k = t \/ In k others) history ->
  forall c, NoDup (keys c) -> (List.length c <= Tuned.maxsize)%nat ->
            behind others t c ->
            behind others t (cache_after lcut history c).
Proof.
  intros Hothers. induction 1 as [|k rest Hk Hrest IH]; intros c Hnd Hlen Hb;
    [exact Hb|].
  simpl. apply IH.
  - apply lru_call_nodup. exact Hnd.
  - apply lru_call_bounded; [unfold Tuned.maxsize; lia | exact Hlen].
  - apply lru_call_behind; assumption.
Qed.

(** X17. A text that has been asked for stays cached as long as the
    calls since then ask for at most 999 other texts: its entry is in the
    cache, with the value [preprocess_text] of [src/main.py] gives. *)
Theorem recently_used_stays_cached (lcut : str -> list str)
        (earlier history others : list (option str)) (t : option str) :
  (List.length others <= 999)%nat ->
  Forall (fun k => k = t \/ In k others) history ->
  functools.lookup t (cache_after lcut (earlier ++ t :: history) [])
  = Some (Main.preprocess_text lcut t).
Proof.
  intros Hothers Hhist. rewrite cache_after_app. simpl.
  set (c0 := cache_after lcut earlier []).
  assert (coherent lcut c0) as Hc0
      by (apply cache_after_coherent, coherent_nil).
  assert (NoDup (keys c0)) as Hnd0 by (apply cache_after_nodup; constructor).
  assert (List.length c0 <= Tuned.maxsize)%nat as Hlen0
      by (apply cache_after_bounded; simpl; lia).
  set (c1 := snd (Tuned.cached_preprocess_text lcut t c0)).
  assert (behind others t (cache_after lcut history c1)) as Hb.
  { apply cache_after_behind; try assumption.
    - unfold Tuned.maxsize. lia.
    - apply lru_call_nodup. exact Hnd0.
    - apply lru_call_bounded; [unfold Tuned.maxsize; lia | exact Hlen0].
    - destruct (lru_call_front Tuned.maxsize
                  (Tuned.cached_preprocess_text_wrapped lcut) t c0)
        as [rest Hrest].
      exists []. eexists. exists rest.
      split; [exact Hrest | apply incl_nil_l]. }
  apply behind_lookup in Hb.
  destruct (functools.lookup t (cache_after lcut history c1)) as [v|] eqn:E;
    [|congruence].
  f_equal. eapply lookup_sound; [|exact E].
  apply cache_after_coherent. apply (preprocess_text_coherent lcut t c0 Hc0).
Qed.

Lemma recently_used_stays_cached_witness :
  functools.lookup (Some hao)
                   (cache_after lcut_chars [Some hao; Some huai; Some hao] [])
  = Some (Main.preprocess_text lcut_chars (Some hao)).
Proof.
  apply (recently_used_stays_cached
           lcut_chars [] [Some huai; Some hao] [Some huai] (Some hao)).
  - simpl. lia.
  - constructor; [right; left; reflexivity|].
    constructor; [left; reflexivity | constructor].
Defined.

(** ** Which texts the cache holds *)

Lemma firstn_In {A} (n : nat) (l : list A) (x : A) :
  In x (firstn n l) -> In x l.
Proof.
  intros H. rewrite <- (firstn_skipn n l). apply in_or_app. left. exact H.
Qed.

Lemma firstn_NoDup {A} (n : nat) (l : list A) :
  NoDup l -> NoDup (firstn n l).
Proof.
  intros H. rewrite <- (firstn_skipn n l) in H.
  eapply NoDup_app_remove_r, H.
Qed.

Lemma filter_other_notin (t : option str) (l : list (option str)) :
  ~ In t l -> filter (fun k => negb (eqb k t)) l = l.
Proof.
  induction l as [|x l IH]; intros H; [reflexivity|]. simpl.
  rewrite key_eqb_neq by (intros ->; apply H; left; reflexivity).
  simpl. f_equal. apply IH. intros H'. apply H. right. exact H'.
Qed.

Lemma filter_other_In (t k : option str) (l : list (option str)) :
  In k (filter (fun k => negb (eqb k t)) l) <-> In k l /\ k <> t.
Proof.
  rewrite filter_In. split; intros [H1 H2]; (split; [exact H1|]).
  - intros ->. rewrite key_eqb_refl in H2. discriminate.
  - rewrite key_eqb_neq by exact H2. reflexivity.
Qed.

Lemma remove_keys_filter (key : option str) (c : functools.cache) :
  NoDup (keys c) ->
  keys (functools.remove key c)
  = filter (fun k => negb (eqb k key)) (keys c).
Proof.
  induction c as [|[k v] c IH]; intros Hnd; [reflexivity|].
  cbn [keys map fst] in Hnd. apply NoDup_cons_iff in Hnd as [Hk Hc].
  cbn [functools.remove keys map fst filter].
  destruct (eqb k key) eqn:E; cbn [negb].
  - apply eqb_eq in E. subst k. symmetry. apply filter_other_notin, Hk.
  - cbn [keys map fst]. f_equal. apply IH, Hc.
Qed.

Lemma removelast_keys_eq (c : functools.cache) :
  keys (removelast c) = removelast (keys c).
Proof.
  unfold keys. induction c as [|kv c IH]; [reflexivity|].
  destruct c as [|kv' c']; [reflexivity|].
  change (removelast (kv :: kv' :: c')) with (kv :: removelast (kv' :: c')).
  rewrite map_cons, IH. reflexivity.
Qed.

Lemma touch_nodup (t : option str) (l : list (option str)) :
  NoDup l -> NoDup (touch t l).
Proof.
  intros H. unfold touch. constructor.
  - rewrite filter_other_In. tauto.
  - apply NoDup_filter, H.
Qed.

Lemma firstn_filter_hit (t : option str) (l : list (option str)) :
  NoDup l ->
  forall n, In t (firstn (S n) l) ->
            firstn n (filter (fun k => negb (eqb k t)) l)
            = filter (fun k => negb (eqb k t)) (firstn (S n) l).
Proof.
  induction l as [|x l IH]; intros Hnd n Hin; [destruct Hin|].
  apply NoDup_cons_iff in Hnd as [Hx Hl].
  cbn [firstn filter] in *.
  destruct (eqb x t) eqn:E; cbn [negb].
  - apply eqb_eq in E. subst x.
    rewrite (filter_other_notin t l Hx).
    symmetry. apply filter_other_notin.
    intros H. apply Hx. eapply firstn_In, H.
  - destruct Hin as [->|Hin]; [rewrite key_eqb_refl in E; discriminate|].
    destruct n as [|n]; [destruct Hin|].
    cbn [firstn]. f_equal. apply IH; assumption.
Qed.

Lemma firstn_filter_miss (t : option str) (l : list (option str)) :
  forall n, ~ In t (firstn (S n) l) ->
            firstn n (filter (fun k => negb (eqb k t)) l) = firstn n l.
Proof.
  induction l as [|x l IH]; intros n Hin; [reflexivity|].
  cbn [firstn filter] in *.
  rewrite key_eqb_neq by (intros ->; apply Hin; left; reflexivity).
  cbn [negb]. destruct n as [|n]; [reflexivity|].
  cbn [firstn]. f_equal. apply IH.
  intros H. apply Hin. right. exact H.
Qed.

Lemma removelast_firstn_full (n : nat) (l : list (option str)) :
  (if (S n <=? List.length (firstn (S n) l))%nat
   then removelast (firstn (S n) l)
   else firstn (S n) l)
  = firstn n l.
Proof.
  destruct (Nat.leb_spec (S n) (List.length (firstn (S n) l))) as [H|H].
  - apply removelast_firstn.
    pose proof (firstn_le_length (S n) l). rewrite length_firstn in H. lia.
  - rewrite length_firstn in H.
    rewrite !firstn_all2 by lia. reflexivity.
Qed.

(** One call keeps the cache the front of the recency list. *)
Lemma lru_call_recency (n : nat) (f : option str -> str)
      (key : option str) (c : functools.cache) (l : list (option str)) :
  NoDup l -> keys c = firstn (S n) l ->
  keys (snd (functools.lru_call (S n) f key c))
  = firstn (S n) (touch key l).
Proof.
  intros Hnd Hc.
  assert (NoDup (keys c)) as Hndc by (rewrite Hc; apply firstn_NoDup, Hnd).
  unfold functools.lru_call, touch.
  destruct (functools.lookup key c) as [v|] eqn:E.
  - assert (In key (firstn (S n) l)) as Hin.
    { rewrite <- Hc. destruct (key_in_dec key (keys c)) as [H|H];
        [exact H|]. apply lookup_None in H. congruence. }
    cbn [snd keys map fst]. fold (keys (functools.remove key c)).
    rewrite (remove_keys_filter key c Hndc), Hc.
    cbn [firstn]. f_equal. symmetry. apply firstn_filter_hit; assumption.
  - apply lookup_None in E. rewrite Hc in E.
    assert (List.length c = List.length (firstn (S n) l)) as ->
        by (rewrite <- Hc; unfold keys; rewrite length_map; reflexivity).
    transitivity (key :: (if (S n <=? List.length (firstn (S n) l))%nat
                          then removelast (firstn (S n) l)
                          else firstn (S n) l)).
    + destruct (S n <=? List.length (firstn (S n) l))%nat;
        cbn [snd keys map fst];
        [fold (keys (removelast c)); rewrite removelast_keys_eq
        | fold (keys c)]; rewrite Hc; reflexivity.
    + rewrite removelast_firstn_full. cbn [firstn]. f_equal.
      symmetry. apply firstn_filter_miss, E.
Qed.

Lemma cache_after_recency (lcut : str -> list str)
      (history : list (option str)) :
  forall (c : functools.cache) (l : list (option str)),
    NoDup l -> keys c = firstn Tuned.maxsize l ->
    keys (cache_after lcut history c)
    = firstn Tuned.maxsize (fold_left (fun l t => touch t l) history l).
Proof.
  induction history as [|t rest IH]; intros c l Hnd Hc; [exact Hc|].
  cbn [cache_after fold_left]. apply IH; [apply touch_nodup, Hnd|].
  apply (lru_call_recency 999 _ t c l Hnd Hc).
Qed.

(** X18. The cache holds exactly the 1000 most recently used texts, or
    all of them when there are fewer, the most recent first. *)
Theorem cache_holds_most_recent (lcut : str -> list str)
        (history : list (option str)) :
  keys (cache_after lcut history []) = firstn 1000 (recency history).
Proof.
  apply (cache_after_recency lcut history [] []); [constructor|reflexivity].
Qed.

(** The texts of [history] come first, in their order of recency. *)
Lemma fold_touch_app (history : list (option str)) :
  forall l,
    fold_left (fun l t => touch t l) history l
    = recency history
      ++ filter (fun k => negb (existsb (eqb k) history)) l.
Proof.
  unfold recency.
  induction history as [|t rest IH]; intros l.
  - cbn [fold_left existsb negb app]. symmetry.
    induction l as [|x l IHl]; [reflexivity|]. simpl. f_equal. exact IHl.
  - cbn [fold_left]. rewrite (IH (touch t l)), (IH (touch t [])).
    rewrite <- app_assoc. f_equal. unfold touch. cbn [filter app].
    destruct (negb (existsb (eqb t) rest)); cbn [app]; [f_equal|];
      (induction l as [|x l IHl]; [reflexivity|]; cbn [filter existsb];
       destruct (eqb x t); cbn [negb orb]; [exact IHl|];
       cbn [filter]; destruct (negb (existsb (eqb x) rest));
       [f_equal; exact IHl | exact IHl]).
Qed.

Lemma recency_In (history : list (option str)) (k : option str) :
  In k (recency history) -> In k history.
Proof.
  unfold recency.
  assert (forall l, In k (fold_left (fun l t => touch t l) history l) ->
                    In k history \/ In k l) as H.
  { induction history as [|t rest IH]; intros l Hin; [right; exact Hin|].
    cbn [fold_left] in Hin. destruct (IH _ Hin) as [H|H].
    - left. right. exact H.
    - destruct H as [->|H]; [left; left; reflexivity|].
      apply filter_other_In in H. right. tauto. }
  intros Hin. destruct (H [] Hin) as [H'|[]]. exact H'.
Qed.

(** X19. A text is dropped from the cache once 1000 other texts have
    been asked for since it was last asked for. *)
Theorem least_recently_used_evicted (lcut : str -> list str)
        (earlier later : list (option str)) (t : option str) :
  ~ In t later ->
  (1000 <= List.length (recency later))%nat ->
  functools.lookup t (cache_after lcut (earlier ++ t :: later) []) = None.
Proof.
  intros Hnot Hlen. apply lookup_None.
  rewrite (cache_after_recency lcut (earlier ++ t :: later) [] [])
    by (constructor || reflexivity).
  rewrite fold_left_app. cbn [fold_left].
  rewrite fold_touch_app, firstn_app.
  replace (Tuned.maxsize - List.length (recency later))%nat with 0%nat
    by (unfold Tuned.maxsize; lia).
  cbn [firstn]. rewrite app_nil_r.
  intros H. apply Hnot, recency_In. eapply firstn_In, H.
Qed.

Lemma notin_by_existsb (t : option str) (l : list (option str)) :
  existsb (eqb t) l = false -> ~ In t l.
Proof.
  intros H Hin. assert (existsb (eqb t) l = true) as H'.
  { apply existsb_exists. exists t. split; [exact Hin | apply key_eqb_refl]. }
  congruence.
Qed.

Lemma least_recently_used_evicted_witness :
  functools.lookup (Some [1%N]) (cache_after lcut_chars texts_1001 [])
  = None.
Proof.
  apply (least_recently_used_evicted
           lcut_chars []
           (map (fun k => Some [N.of_nat k]) (seq 2 1000)) (Some [1%N])).
  - apply notin_by_existsb. vm_compute. reflexivity.
  - apply Nat.leb_le. vm_compute. reflexivity.
Defined.

(** X20. The cache changes no result: whatever texts were segmented
    before, the tuned pair scorer and the batch return what they return
    with an empty cache. *)
Theorem score_independent_of_cache (lcut : str -> list str)
        (fit : list str -> result matrix) (history : list (option str))
        (a b : option str) (text_pairs : list (option str * option str)) :
  fst (Tuned.calculate_similarity lcut fit a b (cache_after lcut history []))
  = fst (Tuned.calculate_similarity lcut fit a b [])
  /\ fst (Tuned.calculate_similarity_batch
            lcut fit text_pairs (cache_after lcut history []))
     = fst (Tuned.calculate_similarity_batch lcut fit text_pairs []).
Proof.
  assert (coherent lcut (cache_after lcut history [])) as Hc
      by apply cache_after_coherent, coherent_nil.
  split.
  - rewrite !calculate_similarity_value
      by (exact Hc || apply coherent_nil). reflexivity.
  - destruct text_pairs as [|p rest]; [reflexivity|].
    rewrite !calculate_similarity_batch_value
      by (exact Hc || apply coherent_nil || discriminate). reflexivity.
Qed.

(* ================================================================== *)
(** * Reading the texts and writing the score *)
(* ================================================================== *)






(* ================================================================== *)
(** * The vectorizer singleton *)
(* ================================================================== *)

Lemma get_vectorizer_again (g : Tuned.globals) (v : nat) :
  Tuned._vectorizer g = Some v ->
  forall n, get_vectorizer_calls n g = (repeat v n, g).
Proof.
  intros H. induction n as [|n IH]; [reflexivity|].
  simpl. unfold Tuned.get_vectorizer. rewrite H, IH. reflexivity.
Qed.

(** X23. Any number of calls of [get_vectorizer()] return the same
    vectorizer, the one the first call returns, and construct at most
    one: exactly one when there was none, as after loading the module,
    and none otherwise. *)
Theorem get_vectorizer_singleton (n : nat) (g : Tuned.globals) :
  fst (get_vectorizer_calls n g) = repeat (fst (Tuned.get_vectorizer g)) n
  /\ (Tuned.constructed (snd (get_vectorizer_calls (S n) g))
      = match Tuned._vectorizer g with
        | Some _ => Tuned.constructed g
        | None => S (Tuned.constructed g)
        end)
  /\ fst (get_vectorizer_calls (S n) Tuned.loaded) = repeat 0%nat (S n)
  /\ Tuned.constructed (snd (get_vectorizer_calls (S n) Tuned.loaded)) = 1%nat.
Proof.
  assert (forall m g',
             fst (get_vectorizer_calls m g')
             = repeat (fst (Tuned.get_vectorizer g')) m
             /\ Tuned.constructed (snd (get_vectorizer_calls (S m) g'))
                = match Tuned._vectorizer g' with
                  | Some _ => Tuned.constructed g'
                  | None => S (Tuned.constructed g')
                  end) as H.
  { intros m g'. destruct (Tuned._vectorizer g') as [v|] eqn:E.
    - rewrite (get_vectorizer_again g' v E), (get_vectorizer_again g' v E).
      unfold Tuned.get_vectorizer. rewrite E. split; reflexivity.
    - set (g1 := {| Tuned._vectorizer := Some (Tuned.constructed g');
                    Tuned.constructed := S (Tuned.constructed g') |}).
      assert (Tuned.get_vectorizer g' = (Tuned.constructed g', g1)) as Hg
          by (unfold Tuned.get_vectorizer; rewrite E; reflexivity).
      assert (forall k, get_vectorizer_calls k g1
                        = (repeat (Tuned.constructed g') k, g1)) as Hk
          by (apply get_vectorizer_again; reflexivity).
      split.
      + destruct m as [|m]; [reflexivity|].
        simpl. rewrite Hg, Hk. reflexivity.
      + simpl. rewrite Hg, Hk. reflexivity. }
  destruct (H n g) as [H1 H2]. destruct (H (S n) Tuned.loaded) as [H3 _].
  destruct (H n Tuned.loaded) as [_ H4].
  repeat split; assumption.
Qed.

(* ================================================================== *)
(** * The command line of src/3223004469/main.py *)
(* ================================================================== *)







(* ================================================================== *)
(** * The command line of src/main.py *)
(* ================================================================== *)



(* ================================================================== *)
(** * Writing a batch of scores *)
(* ================================================================== *)










